(** * mysql-binlog-events: trigger registry, pattern matcher, event builder
      and dispatch engine of [MysqlEvent] (mysql-events.ts)

    The repository carries three revisions of mysql-events.ts.  They share
    [add], [stop], [start], [remove], [getTriggers] and the dispatch loop of
    [eventHandler]; they differ in two places:

    - [checkExpression]: revisions 1 and 2 substitute the wildcard for an
      empty part, revision 3 ([Rev3.checkExpression]) returns the expression
      as given;
    - [getManyEvents]: revisions 1 and 3 update the one event object made by
      [getEventObject] and push it once per row, revision 2
      ([Rev2.getManyEvents]) makes an event per row with
      [Rev2.getEventTemplate].

    Revision 1 is modelled at top level. *)

From Stdlib Require Import ZArith Ascii DecimalString.
From stdpp Require Import gmap strings list fin_maps.

Open Scope string_scope.

(** ** JavaScript strings: [split] on the dot *)

Definition dot : ascii := "."%char.

Definition is_dot (c : ascii) : bool := Ascii.eqb c dot.

(** [s.split('.')]: never empty, one more part than there are dots. *)
Fixpoint split (s : string) : list string :=
  match s with
  | EmptyString => [""]
  | String c s' =>
      if is_dot c then "" :: split s'
      else match split s' with
           | p :: ps => String c p :: ps
           | [] => [String c ""]
           end
  end.

Fixpoint has_dot (s : string) : bool :=
  match s with
  | EmptyString => false
  | String c s' => is_dot c || has_dot s'
  end.

(** [parts.join('.')] *)
Fixpoint join (parts : list string) : string :=
  match parts with
  | [] => ""
  | [p] => p
  | p :: ps => p +:+ "." +:+ join ps
  end.

(** ** Outcomes of a call: a value, or a thrown error *)

Inductive jserror : Type :=
  | TypeError
  | Error (msg : string).

Inductive result (A : Type) : Type :=
  | Ok (a : A)
  | Throw (e : jserror).
Arguments Ok {A} a.
Arguments Throw {A} e.

Definition HandlerMustBeFunction : jserror := Error "Handler must be a function!".

Definition InvalidExpression : jserror :=
  Error "The expression must consist of two parts [ database/*.table/* ] or character [ */*.* ]".

(** ** checkExpression (revisions 1 and 2)

    [expression] is an optional field of the trigger: [None] is
    [undefined]; [!expression] holds for [undefined] and for the empty
    string. *)
Definition checkExpression (expression : option string) : result string :=
  match expression with
  | None => Ok "*"
  | Some e =>
      if String.eqb e "" || String.eqb e "*" || String.eqb e "*.*" then Ok "*"
      else
        match split e with
        | [p0; p1] =>
            Ok (if String.eqb p0 "" then "*." +:+ p1
                else if String.eqb p1 "" then p0 +:+ ".*"
                else e)
        | _ => Throw InvalidExpression
        end
  end.

Module Rev3.

(** checkExpression of revision 3: the two-part check only. *)
Definition checkExpression (expression : option string) : result string :=
  match expression with
  | None => Ok "*"
  | Some e =>
      if String.eqb e "" || String.eqb e "*" || String.eqb e "*.*" then Ok "*"
      else if negb (Nat.eqb (length (split e)) 2) then Throw InvalidExpression
      else Ok e
  end.

End Rev3.

(** The four canonical shapes of an expression. *)
Definition part_ok (p : string) : Prop := p ≠ "" ∧ p ≠ "*".

Inductive canonical : string → Prop :=
  | canonical_all : canonical "*"
  | canonical_schema db : part_ok db → canonical (db +:+ ".*")
  | canonical_table tbl : part_ok tbl → canonical ("*." +:+ tbl)
  | canonical_exact db tbl : part_ok db → part_ok tbl → canonical (db +:+ "." +:+ tbl).


(** ** Statements, handlers and trigger objects *)

Inductive STATEMENTS : Type := INSERT | UPDATE | DELETE | ALL.

Global Instance STATEMENTS_eq_dec : EqDecision STATEMENTS.
Proof. solve_decision. Defined.

(** The values an action can be.  [binlogCallback] reads it from the enum
    object ACTIONS at the name of the binlog event: a member of the enum,
    which is a statement, or a property that the enum object inherits from
    [Object.prototype], which is a function or an object: a truthy value
    that is equal to no statement.  [Inherited key] is the value of the
    inherited property [key]. *)
Inductive action_value : Type :=
  | Statement (s : STATEMENTS)
  | Inherited (key : string).

Coercion Statement : STATEMENTS >-> action_value.

Global Instance action_value_eq_dec : EqDecision action_value.
Proof. solve_decision. Defined.

(** The value of the [handler] field: a function (known by an identity;
    its body is the subscriber's) or any other value. *)
Inductive IHandler : Type :=
  | Function (id : nat)
  | NotFunction.

(** [typeof h === 'function'] *)
Definition is_function (h : IHandler) : bool :=
  match h with Function _ => true | NotFunction => false end.

(** interface ITrigger: every field but [handler] is optional. *)
Record ITrigger : Type := mkTrigger {
  handler : IHandler;
  tag : option string;
  expression : option string;
  statement : option STATEMENTS;
  enable : option bool
}.

Definition set_enable (b : bool) (o : ITrigger) : ITrigger :=
  mkTrigger (handler o) (tag o) (expression o) (statement o) (Some b).
Definition set_statement (s : STATEMENTS) (o : ITrigger) : ITrigger :=
  mkTrigger (handler o) (tag o) (expression o) (Some s) (enable o).
Definition set_tag (t : string) (o : ITrigger) : ITrigger :=
  mkTrigger (handler o) (Some t) (expression o) (statement o) (enable o).
Definition set_expression (e : string) (o : ITrigger) : ITrigger :=
  mkTrigger (handler o) (tag o) (Some e) (statement o) (enable o).

(** [s || d] on an optional string: [undefined] and the empty string are
    falsy. *)
Definition or_else (s : option string) (d : string) : string :=
  match s with
  | Some v => if String.eqb v "" then d else v
  | None => d
  end.

(** [trg.statement || STATEMENTS.ALL] *)
Definition statement_or_ALL (s : option STATEMENTS) : STATEMENTS :=
  match s with Some v => v | None => ALL end.

(** ** The instance and the objects it shares with its callers

    A trigger passed to [add] is stored by reference: the caller keeps the
    object and the [triggers] map points to the same one.  [heap] holds the
    trigger objects, a reference is an index into it; [triggers] and [tags]
    are the two private maps of the class. *)
Abbreviation loc := nat.

Record MysqlEvent : Type := mkMysqlEvent {
  heap : list ITrigger;
  triggers : gmap string loc;
  tags : gmap string string
}.

(** State and exceptions: a call maps a state to the state it leaves and
    to its value or the error it throws. *)
Definition M (S A : Type) : Type := S → S * result A.

Global Instance M_ret {S} : MRet (M S) := λ A a s, (s, Ok a).
Global Instance M_bind {S} : MBind (M S) := λ A B k m s,
  match m s with
  | (s', Ok a) => k a s'
  | (s', Throw e) => (s', Throw e)
  end.

Definition throw {S A} (e : jserror) : M S A := λ s, (s, Throw e).
Definition lift {S A} (r : result A) : M S A := λ s, (s, r).
Definition gets {S A} (f : S → A) : M S A := λ s, (s, Ok (f s)).
Definition modify {S} (f : S → S) : M S unit := λ s, (f s, Ok ()).

Global Instance result_ret : MRet result := λ A a, Ok a.
Global Instance result_bind : MBind result := λ A B k m,
  match m with
  | Ok a => k a
  | Throw e => Throw e
  end.

(** Reading through a reference; a reference always has its object, the
    [None] case stands for a property read on [undefined]. *)
Definition deref (l : loc) : M MysqlEvent ITrigger := λ w,
  match heap w !! l with
  | Some o => (w, Ok o)
  | None => (w, Throw TypeError)
  end.

(** [trg.field = value], with the new object computed from the old one. *)
Definition assign (l : loc) (f : ITrigger → ITrigger) : M MysqlEvent unit :=
  modify (λ w, mkMysqlEvent (alter f l (heap w)) (triggers w) (tags w)).

Definition tags_set (e t : string) (w : MysqlEvent) : MysqlEvent :=
  mkMysqlEvent (heap w) (triggers w) (<[e := t]> (tags w)).
Definition triggers_set (t : string) (l : loc) (w : MysqlEvent) : MysqlEvent :=
  mkMysqlEvent (heap w) (<[t := l]> (triggers w)) (tags w).
Definition triggers_delete (t : string) (w : MysqlEvent) : MysqlEvent :=
  mkMysqlEvent (heap w) (delete t (triggers w)) (tags w).

Definition triggers_has (t : string) (w : MysqlEvent) : bool :=
  bool_decide (is_Some (triggers w !! t)).
Definition tags_has (e : string) (w : MysqlEvent) : bool :=
  bool_decide (is_Some (tags w !! e)).

(** What [add] returns: the tag, [null] on a collision ([false] in
    revision 3), [undefined] when called without a trigger. *)
Inductive add_return : Type :=
  | Tag (t : string)
  | Null
  | Undefined.

(** add.  [rnd] is the string [getRandomTag] would produce: it is used
    only when the trigger has no tag of its own. *)
Definition add (trg : option loc) (rnd : string) : M MysqlEvent add_return :=
  match trg with
  | None => mret Undefined
  | Some l =>
      o ← deref l;
      if negb (is_function (handler o)) then throw HandlerMustBeFunction
      else
        assign l (set_enable true);;
        assign l (λ o, set_statement (statement_or_ALL (statement o)) o);;
        o ← deref l;
        let tag' := or_else (tag o) rnd in
        assign l (set_tag tag');;
        expression' ← lift (checkExpression (expression o));
        assign l (set_expression expression');;
        (* const { expression, tag } = trg: the two values just stored *)
        taken ← gets (λ w, triggers_has tag' w || tags_has expression' w);
        if (taken : bool) then mret Null
        else
          modify (tags_set expression' tag');;
          modify (triggers_set tag' l);;
          mret (Tag tag')
  end.

(** stop, start: [trg && (trg.enable = ...)]; the returned [this] is not
    modelled. *)
Definition stop (t : string) : M MysqlEvent unit :=
  trg ← gets (λ w, triggers w !! t);
  match trg with
  | Some l => assign l (set_enable false)
  | None => mret ()
  end.

Definition start (t : string) : M MysqlEvent unit :=
  trg ← gets (λ w, triggers w !! t);
  match trg with
  | Some l => assign l (set_enable true)
  | None => mret ()
  end.

(** remove: [this.triggers.delete(tag)] and nothing else. *)
Definition remove (t : string) : M MysqlEvent unit :=
  modify (triggers_delete t).

(** ** getTriggers *)

(** A part of the split path inside a template literal: a missing part
    prints as [undefined]. *)
Definition part (parts : list string) (i : nat) : string :=
  default "undefined" (parts !! i).

Definition pathOptions (path : string) : list string :=
  let parts := split path in
  let db := part parts 0 in
  let table := part parts 1 in
  ["*"; db +:+ ".*"; "*." +:+ table; db +:+ "." +:+ table].

(** [statement === action], for the statement of a trigger: no statement
    is equal to an inherited value. *)
Definition strict_equal (statement : option STATEMENTS) (action : action_value)
    : bool :=
  match action with
  | Statement a => bool_decide (statement = Some a)
  | Inherited _ => false
  end.

(** [(statement === STATEMENTS.ALL || statement === action) && enable === true] *)
Definition fires (action : action_value) (trg : ITrigger) : bool :=
  (bool_decide (statement trg = Some ALL) || strict_equal (statement trg) action)
  && bool_decide (enable trg = Some true).

(** The callback of [pathOptions.forEach]: [found] is the array
    [triggers] being filled.  Destructuring [trg] when the tag has no
    entry in [this.triggers] is a TypeError. *)
Definition visit (w : MysqlEvent) (action : action_value) (found : list loc)
    (exp : string) : result (list loc) :=
  match tags w !! exp with
  | None => Ok found
  | Some t =>
      if String.eqb t "" then Ok found
      else
        match triggers w !! t with
        | None => Throw TypeError
        | Some l =>
            match heap w !! l with
            | None => Throw TypeError
            | Some trg => Ok (if fires action trg then (found ++ [l])%list else found)
            end
        end
  end.

(** A loop whose body may throw: [acc] is what the body updates (an array
    it pushes to, a set it adds to). *)
Fixpoint foldM `{MBind T, MRet T} {A B} (f : B → A → T B) (acc : B) (xs : list A)
    : T B :=
  match xs with
  | [] => mret acc
  | x :: xs' => acc' ← f acc x; foldM f acc' xs'
  end.

Definition getTriggers (w : MysqlEvent) (path : string) (action : action_value)
    : result (list loc) :=
  foldM (visit w action) [] (pathOptions path).

(** The path [eventHandler] hands to [getTriggers]. *)
Definition pathOf (database table : string) : string :=
  database +:+ "." +:+ table.

(** Pattern matcher as the specification words it: the four candidates
    in order, each looked up on its own. *)
Definition candidates (database table : string) : list string :=
  ["*"; database +:+ ".*"; "*." +:+ table; database +:+ "." +:+ table].

Definition owner (w : MysqlEvent) (exp : string) : option (loc * ITrigger) :=
  t ← tags w !! exp;
  l ← triggers w !! t;
  trg ← heap w !! l;
  Some (l, trg).

Definition accepts (action : STATEMENTS) (trg : ITrigger) : bool :=
  bool_decide (enable trg = Some true)
  && (bool_decide (statement trg = Some ALL) || bool_decide (statement trg = Some action)).

Definition match_candidate (w : MysqlEvent) (action : STATEMENTS) (exp : string)
    : list loc :=
  match owner w exp with
  | Some (l, trg) => if accepts action trg then [l] else []
  | None => []
  end.

Definition match_spec (w : MysqlEvent) (database table : string)
    (action : STATEMENTS) : list loc :=
  concat (map (match_candidate w action) (candidates database table)).

(** Registry states the matcher is specified on. *)
Definition resolves (w : MysqlEvent) : Prop :=
  ∀ e t, tags w !! e = Some t →
    ∃ l trg, triggers w !! t = Some l ∧ heap w !! l = Some trg.

Definition tags_nonempty (w : MysqlEvent) : Prop :=
  ∀ e t, tags w !! e = Some t → t ≠ "".

(** ** Sequences of public operations *)

Inductive op : Type :=
  | OpAdd (trg : option loc) (rnd : string)
  | OpStart (t : string)
  | OpStop (t : string)
  | OpRemove (t : string).

Definition step (w : MysqlEvent) (o : op) : MysqlEvent :=
  match o with
  | OpAdd trg rnd => fst (add trg rnd w)
  | OpStart t => fst (start t w)
  | OpStop t => fst (stop t w)
  | OpRemove t => fst (remove t w)
  end.

Definition run (ops : list op) (w : MysqlEvent) : MysqlEvent :=
  foldl step w ops.

(** A fresh instance: both maps empty, [objs] the objects of the caller. *)
Definition fresh (objs : list ITrigger) : MysqlEvent :=
  mkMysqlEvent objs ∅ ∅.

(** ** Row values

    The values a row carries, as far as [String(...)], property reads and
    [for ... in] see them, which is all the builder does with them.  A
    number is known by what [String] prints for it: [JNum n] is the number
    that prints as the decimal numeral of [n], as every integer up to 2^53
    in absolute value does; numbers that print with a fraction or an
    exponent, and dates, are not among the values.  An object is its own
    enumerable properties in enumeration order; inherited properties are
    not modelled. *)
#[local] Set Warnings "-register-all".
Inductive jsval : Type :=
  | JUndefined
  | JNull
  | JBool (b : bool)
  | JNum (n : Z)
  | JStr (s : string)
  | JObj (props : list (string * jsval)).

Definition string_of_nat (i : nat) : string :=
  NilZero.string_of_uint (Nat.to_uint i).

(** [String(v)] *)
Definition ToString (v : jsval) : string :=
  match v with
  | JUndefined => "undefined"
  | JNull => "null"
  | JBool true => "true"
  | JBool false => "false"
  | JNum n => NilZero.string_of_int (Z.to_int n)
  | JStr s => s
  | JObj _ => "[object Object]"
  end.

Fixpoint lookup_prop (props : list (string * jsval)) (k : string) : jsval :=
  match props with
  | [] => JUndefined
  | (k', v) :: props' => if String.eqb k' k then v else lookup_prop props' k
  end.

Definition index_of (s k : string) : option nat :=
  List.find (λ i, String.eqb (string_of_nat i) k) (seq 0 (String.length s)).

(** [v[k]]: a TypeError on [undefined] and [null]. *)
Definition get (v : jsval) (k : string) : result jsval :=
  match v with
  | JUndefined | JNull => Throw TypeError
  | JObj props => Ok (lookup_prop props k)
  | JStr s =>
      match index_of s k with
      | Some i =>
          match String.get i s with
          | Some c => Ok (JStr (String c ""))
          | None => Ok JUndefined
          end
      | None =>
          if String.eqb k "length" then Ok (JNum (Z.of_nat (String.length s)))
          else Ok JUndefined
      end
  | JBool _ | JNum _ => Ok JUndefined
  end.

(** The keys [for (const key in v)] visits; none for [undefined], [null],
    numbers and booleans. *)
Definition keys (v : jsval) : list string :=
  match v with
  | JObj props => map fst props
  | JStr s => map string_of_nat (seq 0 (String.length s))
  | _ => []
  end.

(** [set.add(key)] on a [Set] kept in insertion order. *)
Definition set_add (key : string) (set : list string) : list string :=
  if bool_decide (key ∈ set) then set else (set ++ [key])%list.

(** The row of an update as the stream delivers it. *)
Definition updateRow (before after : list (string * jsval)) : jsval :=
  JObj [("before", JObj before); ("after", JObj after)].

(** ** Events *)

Record EventData : Type := mkData {
  old : jsval;
  new : jsval
}.

Record IEvent : Type := mkEvent {
  action : action_value;
  timestamp : Z;
  database : option string;
  table : option string;
  changedColumns : list string;
  data : EventData
}.

Definition set_data_new (v : jsval) (e : IEvent) : IEvent :=
  mkEvent (action e) (timestamp e) (database e) (table e) (changedColumns e)
          (mkData (old (data e)) v).
Definition set_data_old (v : jsval) (e : IEvent) : IEvent :=
  mkEvent (action e) (timestamp e) (database e) (table e) (changedColumns e)
          (mkData v (new (data e))).
Definition set_changedColumns (cs : list string) (e : IEvent) : IEvent :=
  mkEvent (action e) (timestamp e) (database e) (table e) cs (data e).

(** The body of the [for ... in] loop of the UPDATE branch. *)
Definition compare (before after : jsval) (set : list string) (key : string)
    : result (list string) :=
  b ← get before key;
  a ← get after key;
  mret (if String.eqb (ToString b) (ToString a) then set else set_add key set).

(** [changedColumns] of the UPDATE branch, as [Array.from] lists it. *)
Definition changed (before after : jsval) : result (list string) :=
  foldM (compare before after) [] (keys before).

(** The three [if] blocks [getManyEvents] runs on [event] for one row; the
    text is the same in the three revisions.  A throw happens before any
    write of the UPDATE block. *)
Definition fillEvent (act : action_value) (event : IEvent) (row : jsval)
    : result IEvent :=
  let event := if bool_decide (act = INSERT) then set_data_new row event else event in
  let event := if bool_decide (act = DELETE) then set_data_old row event else event in
  if bool_decide (act = UPDATE) then
    before ← get row "before";
    after ← get row "after";
    cs ← changed before after;
    mret (set_changedColumns cs (set_data_new after (set_data_old before event)))
  else mret event.

(** ** Dispatch *)

Record TableMapEntry : Type := mkEntry {
  parentSchema : string;
  tableName : string
}.

Record BinlogEvent : Type := mkBinlogEvent {
  tableMap : gmap Z TableMapEntry;
  tableId : Z;
  binlog_timestamp : Z;
  rows : list jsval
}.

(** The names of the properties of [Object.prototype], which every plain
    object inherits; the enum object is one. *)
Definition Object_prototype : list string :=
  ["constructor"; "hasOwnProperty"; "isPrototypeOf"; "propertyIsEnumerable";
   "toLocaleString"; "toString"; "valueOf"; "__proto__";
   "__defineGetter__"; "__defineSetter__"; "__lookupGetter__"; "__lookupSetter__"].

(** enum ACTIONS, read at the name of a binlog event: [ACTIONS[name]].  The
    three members first; then what the enum object inherits; [None] is
    [undefined]. *)
Definition ACTIONS (name : string) : option action_value :=
  if String.eqb name "writerows" then Some (Statement INSERT)
  else if String.eqb name "updaterows" then Some (Statement UPDATE)
  else if String.eqb name "deleterows" then Some (Statement DELETE)
  else if bool_decide (name ∈ Object_prototype) then Some (Inherited name)
  else None.

(** A handler invocation: which function, with which event.  Handlers are
    the subscribers' code: a call is recorded, and taken to return without
    touching the registry or the event. *)
Definition Invocation : Type := nat * IEvent.

(** [trg.handler(evt)] *)
Definition invoke (w : MysqlEvent) (trg : loc) (evt : IEvent)
    : M (list Invocation) unit :=
  match handler <$> heap w !! trg with
  | Some (Function id) => modify (λ log, log ++ [(id, evt)])%list
  | _ => throw TypeError
  end.

Fixpoint forEach {S A} (xs : list A) (f : A → M S unit) : M S unit :=
  match xs with
  | [] => mret ()
  | x :: xs' => f x;; forEach xs' f
  end.

(** [for (const trg of triggers) events.forEach(evt => trg.handler(evt))] *)
Definition dispatch (w : MysqlEvent) (found : list loc) (events : list IEvent)
    : M (list Invocation) unit :=
  forEach found (λ trg, forEach events (λ evt, invoke w trg evt)).

(** [tableMap[tableId]], whose fields are read next. *)
Definition table_entry (blEvent : BinlogEvent) : result TableMapEntry :=
  match tableMap blEvent !! tableId blEvent with
  | Some entry => Ok entry
  | None => Throw TypeError
  end.

(** ** The event builder and eventHandler (revision 1; revision 3 has the
       same text) *)

(** getEventObject *)
Definition getEventObject (act : action_value) (path : string) (timestamp : Z)
    : IEvent :=
  let parts := split path in
  mkEvent act timestamp (parts !! 0) (parts !! 1) [] (mkData JNull JNull).

(** Reading the event object a reference points to. *)
Definition read_event (event : loc) : M (list IEvent) IEvent := λ h,
  match h !! event with
  | Some o => (h, Ok o)
  | None => (h, Throw TypeError)
  end.

(** getManyEvents: [event] refers to one object, which every row updates
    and which is pushed once per row.  The state is the store of event
    objects; [payloads] holds references into it. *)
Definition getManyEvents (event : loc) (act : action_value) (rows : list jsval)
    : M (list IEvent) (list loc) :=
  foldM (λ payloads row,
           o ← read_event event;
           o' ← lift (fillEvent act o row);
           modify (λ h, <[event := o']> h);;
           mret (payloads ++ [event])%list)
        [] rows.

(** What a reader of [payloads] sees once [getManyEvents] has returned. *)
Definition contents (h : list IEvent) (payloads : list loc) : list IEvent :=
  omap (λ p, h !! p) payloads.

(** eventHandler: the event object is made once, by [getEventObject], and
    every payload refers to it. *)
Definition eventHandler (w : MysqlEvent) (blEvent : BinlogEvent)
    (act : action_value) : M (list Invocation) unit :=
  entry ← lift (table_entry blEvent);
  let path := parentSchema entry +:+ "." +:+ tableName entry in
  found ← lift (getTriggers w path act);
  if Nat.eqb (length found) 0 then mret ()
  else
    let eventObject := getEventObject act path (binlog_timestamp blEvent) in
    match getManyEvents 0 act (rows blEvent) [eventObject] with
    | (h, Ok payloads) => dispatch w found (contents h payloads)
    | (_, Throw e) => throw e
    end.

(** binlogCallback: [if (!action) return]: a name at which the enum object
    has nothing is dropped. *)
Definition binlogCallback (w : MysqlEvent) (name : string) (blEvent : BinlogEvent)
    : M (list Invocation) unit :=
  match ACTIONS name with
  | None => mret ()
  | Some act => eventHandler w blEvent act
  end.

Module Rev2.

(** interface ITemplate *)
Record ITemplate : Type := mkTemplate {
  path : string;
  template_timestamp : Z
}.

(** getEventTemplate: a new object at every call. *)
Definition getEventTemplate (act : action_value) (template : ITemplate) : IEvent :=
  let parts := split (path template) in
  mkEvent act (template_timestamp template) (parts !! 0) (parts !! 1) []
          (mkData JNull JNull).

(** getManyEvents of revision 2: an event of its own for each row. *)
Definition getManyEvents (act : action_value) (rows : list jsval)
    (template : ITemplate) : result (list IEvent) :=
  foldM (λ payloads row,
           event ← fillEvent act (getEventTemplate act template) row;
           mret (payloads ++ [event])%list)
        [] rows.

(** eventHandler of revision 2 *)
Definition eventHandler (w : MysqlEvent) (blEvent : BinlogEvent)
    (act : action_value) : M (list Invocation) unit :=
  entry ← lift (table_entry blEvent);
  let path := parentSchema entry +:+ "." +:+ tableName entry in
  found ← lift (getTriggers w path act);
  if Nat.eqb (length found) 0 then mret ()
  else
    events ← lift (getManyEvents act (rows blEvent)
                     (mkTemplate path (binlog_timestamp blEvent)));
    dispatch w found events.

End Rev2.

(** The trigger object after the three defaulting writes of [add]
    ([enable], [statement], [tag]). *)
Definition defaulted (o : ITrigger) (rnd : string) : ITrigger :=
  set_tag (or_else (tag o) rnd)
    (set_statement (statement_or_ALL (statement o)) (set_enable true o)).

(** ** Sample objects and states *)

Definition subscriber (id : nat) (t e : string) : ITrigger :=
  mkTrigger (Function id) (Some t) (Some e) None None.

(** One caller object registered under tag [t] for [a.b], and a second
    object of the caller, not registered. *)
Definition two_objects (second : ITrigger) : MysqlEvent :=
  fresh [subscriber 0 "t" "a.b"; second].

Definition after_add (second : ITrigger) : MysqlEvent :=
  run [OpAdd (Some 0) "0rnd"] (two_objects second).

Definition after_remove (second : ITrigger) : MysqlEvent :=
  run [OpAdd (Some 0) "0rnd"; OpRemove "t"] (two_objects second).

(** A state whose expression map holds the empty tag. *)
Definition empty_tag_state : MysqlEvent :=
  mkMysqlEvent [mkTrigger (Function 0) (Some "") (Some "*") (Some ALL) (Some true)]
               {[ "" := 0 ]} {[ "*" := "" ]}.

(** A second object of the caller whose tag is taken and whose
    expression has three parts. *)
Definition taken_tag_bad_expression : ITrigger :=
  mkTrigger (Function 1) (Some "t") (Some "a.b.c") None None.

(** A second object of the caller with the taken tag, disabled by the
    caller, and an empty schema part. *)
Definition taken_tag_disabled : ITrigger :=
  mkTrigger (Function 1) (Some "t") (Some ".b") None (Some false).

(** A second object of the caller without a tag, for the schema [shop]. *)
Definition other_subscriber : ITrigger :=
  mkTrigger (Function 1) None (Some "shop.") (Some UPDATE) None.

(** A second object of the caller asking for [a.b] under a tag of its
    own. *)
Definition same_expression_new_tag : ITrigger :=
  mkTrigger (Function 1) (Some "u") (Some "a.b") None None.

(** The four subscriptions of the specification's example, registered in
    order. *)
Definition four_subscribers : MysqlEvent :=
  run [OpAdd (Some 0) "0a"; OpAdd (Some 1) "0b"; OpAdd (Some 2) "0c"; OpAdd (Some 3) "0d"]
      (fresh [mkTrigger (Function 0) None (Some "*") (Some ALL) None;
              mkTrigger (Function 1) None (Some "shop.*") (Some UPDATE) None;
              mkTrigger (Function 2) None (Some "*.orders") (Some INSERT) None;
              mkTrigger (Function 3) None (Some "shop.orders") (Some DELETE) None]).

(** Checkers for [resolves] and [tags_nonempty] on a given state. *)
Definition resolvesb (w : MysqlEvent) : bool :=
  forallb (λ et : string * string,
             match triggers w !! et.2 with
             | Some l => bool_decide (is_Some (heap w !! l))
             | None => false
             end)
          (map_to_list (tags w)).

Definition tags_nonemptyb (w : MysqlEvent) : bool :=
  forallb (λ et : string * string, negb (String.eqb et.2 "")) (map_to_list (tags w)).

Definition is_remove (o : op) : bool :=
  match o with OpRemove _ => true | _ => false end.

(** The string standing for a generated tag is not empty ([getRandomTag]
    prints a number, so it returns one character at least). *)
Definition generated_ok (o : op) : bool :=
  match o with OpAdd _ rnd => negb (String.eqb rnd "") | _ => true end.

(** Every entry of [triggers] refers to an object, every entry of [tags]
    to an entry of [triggers]. *)
Definition consistent (w : MysqlEvent) : Prop :=
  (∀ t l, triggers w !! t = Some l → l < length (heap w)) ∧
  (∀ e t, tags w !! e = Some t → is_Some (triggers w !! t)).

(** ** The event builder as the specification words it *)

(** The stringified before and after values of column [k] differ. *)
Definition differs (before after : list (string * jsval)) (k : string) : bool :=
  negb (String.eqb (ToString (lookup_prop before k)) (ToString (lookup_prop after k))).

(** Event [e] carries the two images and, as a set, the columns of the
    before-image that differ. *)
Definition reflects_update (e : IEvent) (before after : list (string * jsval))
    : Prop :=
  old (data e) = JObj before ∧
  new (data e) = JObj after ∧
  NoDup (changedColumns e) ∧
  ∀ k, k ∈ changedColumns e ↔ k ∈ map fst before ∧ differs before after k = true.

Definition is_update_row (row : jsval) : Prop :=
  ∃ before after, row = updateRow before after.

(** The rows of a batch as the stream delivers them: an update batch
    carries before and after images. *)
Definition well_formed_rows (act : STATEMENTS) (rows : list jsval) : Prop :=
  act = UPDATE → Forall is_update_row rows.

(** Sample rows. *)
Definition row1 : jsval := JObj [("id", JNum 1)].
Definition row2 : jsval := JObj [("id", JNum 2)].

Definition status_before : list (string * jsval) :=
  [("status", JStr "A"); ("qty", JNum 1)].
Definition status_after : list (string * jsval) :=
  [("status", JStr "B"); ("qty", JNum 1)].

Definition orders : Rev2.ITemplate := Rev2.mkTemplate "shop.orders" 1000.

(** A batch of two update rows: the status goes from A to B, then the
    quantity from 1 to 2. *)
Definition qty_after : list (string * jsval) :=
  [("status", JStr "B"); ("qty", JNum 2)].

Definition two_updates : list jsval :=
  [updateRow status_before status_after; updateRow status_after qty_after].

(** ** Dispatch as the specification words it *)

(** The invocations for subscribers [ids] and events [events]: subscriber
    by subscriber, and for each the events in order. *)
Definition deliveries (ids : list nat) (events : list IEvent) : list Invocation :=
  flat_map (λ id, map (pair id) events) ids.

(** A call that returns after making these invocations and no other. *)
Definition delivers (call : M (list Invocation) unit) (ids : list nat)
    (events : list IEvent) : Prop :=
  ∀ log, call log = ((log ++ deliveries ids events)%list, Ok ()).

(** The handlers of the triggers [found] are the functions [ids]. *)
Definition handlers_of (w : MysqlEvent) (found : list loc) (ids : list nat) : Prop :=
  Forall2 (λ l id, handler <$> heap w !! l = Some (Function id)) found ids.

(** A batch of two inserted rows on [shop.orders]. *)
Definition two_inserts : BinlogEvent :=
  mkBinlogEvent {[ 7%Z := mkEntry "shop" "orders" ]} 7 1000 [row1; row2].

(** A batch whose one row is [null], on a table nobody subscribed to. *)
Definition null_update : BinlogEvent :=
  mkBinlogEvent {[ 7%Z := mkEntry "shop" "orders" ]} 7 1000 [JNull].

(** ** Further definitions *)

(** The number of dots of a string. *)
Fixpoint count_dots (s : string) : nat :=
  match s with
  | EmptyString => 0
  | String c s' => (if is_dot c then 1 else 0) + count_dots s'
  end.

(** Every registered trigger has a function for handler. *)
Definition handlers_callable (w : MysqlEvent) : Prop :=
  ∀ t l o, triggers w !! t = Some l → heap w !! l = Some o →
           is_function (handler o) = true.

(** Tags and expressions go by pairs: no tag is the value of two
    expression entries, and every registered tag is the value of one. *)
Definition one_to_one (w : MysqlEvent) : Prop :=
  (∀ e1 e2 t, tags w !! e1 = Some t → tags w !! e2 = Some t → e1 = e2) ∧
  (∀ t l, triggers w !! t = Some l → ∃ e, tags w !! e = Some t).

(** A disabled object without a handler, and a caller object asking for
    the tag [t] and the expression [c.d]. *)
Definition not_a_handler : ITrigger :=
  mkTrigger NotFunction (Some "n") (Some "x.y") None None.

Definition same_tag_new_expression : ITrigger :=
  mkTrigger (Function 1) (Some "t") (Some "c.d") None None.

(** An update row that lacks its after-image. *)
Definition beforeOnly (before : list (string * jsval)) : jsval :=
  JObj [("before", JObj before)].

(** ** getRandomTag

    [printed] stands for [Math.random().toString(36)], the one input of the
    function. *)

(** The class [a-z|0-9] of the pattern; inside the brackets the bar is a
    character like the others. *)
Definition tag_char (c : ascii) : bool :=
  let n := nat_of_ascii c in
  (Nat.leb 97 n && Nat.leb n 122) || Nat.eqb n 124 || (Nat.leb 48 n && Nat.leb n 57).

(** [.replace(/[^a-z|0-9]+/g, '')]: every run of other characters goes. *)
Fixpoint replace_others (s : string) : string :=
  match s with
  | EmptyString => EmptyString
  | String c s' =>
      if tag_char c then String c (replace_others s') else replace_others s'
  end.

(** getRandomTag; [.substr(0, 7)] is [substring 0 7]. *)
Definition getRandomTag (printed : string) : string :=
  String.substring 0 7 (replace_others printed).

(** ** The binlog listeners

    [this.zongji] is an event emitter.  What the class does to it is
    followed on the list of its listeners for [binlog], oldest first; a
    listener is a function object, known by its identity, and
    [next_function] is the identity of the function object made next. *)
Record Zongji : Type := mkZongji {
  listeners : list nat;
  next_function : nat
}.

(** [this.binlogCallback.bind(this)]: a new function object each time. *)
Definition bind_binlogCallback : M Zongji nat := λ z,
  (mkZongji (listeners z) (S (next_function z)), Ok (next_function z)).

Fixpoint remove_first (f : nat) (fs : list nat) : list nat :=
  match fs with
  | [] => []
  | g :: fs' => if Nat.eqb f g then fs' else g :: remove_first f fs'
  end.

(** [this.zongji.removeListener('binlog', f)]: the instance of [f] added
    last goes, if there is one. *)
Definition removeListener (f : nat) : M Zongji unit :=
  modify (λ z, mkZongji (reverse (remove_first f (reverse (listeners z))))
                        (next_function z)).

(** [this.zongji.on('binlog', f)] *)
Definition on (f : nat) : M Zongji unit :=
  modify (λ z, mkZongji (listeners z ++ [f])%list (next_function z)).

(** init, as far as the [binlog] listeners go: the listeners it adds for
    [error] and for SIGINT, and the call of [zongji.start], are left
    out. *)
Definition init : M Zongji unit :=
  f ← bind_binlogCallback;
  removeListener f;;
  g ← bind_binlogCallback;
  on g.

(** The body of the [error] listener, in the same way. *)
Definition on_error : M Zongji unit :=
  f ← bind_binlogCallback;
  removeListener f.

(** satrtAll *)
Definition satrtAll : M Zongji unit := init.

(** What happens to the emitter of one instance: the constructor and
    [satrtAll] run [init], an [error] event runs the error listener. *)
Inductive emitter_op : Type :=
  | Init
  | ErrorEvent.

Definition emitter_step (z : Zongji) (o : emitter_op) : Zongji :=
  match o with
  | Init => (init z).1
  | ErrorEvent => (on_error z).1
  end.

Definition emitter_run (ops : list emitter_op) (z : Zongji) : Zongji :=
  foldl emitter_step z ops.

Definition is_init (o : emitter_op) : bool :=
  match o with Init => true | ErrorEvent => false end.

(** The emitter before the constructor of [MysqlEvent] has run. *)
Definition new_Zongji : Zongji := mkZongji [] 0.

(** One binlog event emitted: every listener is [binlogCallback] bound to
    the instance, and they are called in the order they were added. *)
Definition emit_binlog (z : Zongji) (w : MysqlEvent) (name : string)
    (blEvent : BinlogEvent) : M (list Invocation) unit :=
  forEach (listeners z) (λ _, binlogCallback w name blEvent).

(** ** Facts about [split] *)

Lemma split_not_nil s : split s ≠ [].
Proof.
  destruct s as [|c s]; simpl; [done|].
  destruct (is_dot c); [done|]. by destruct (split s).
Qed.

Lemma split_no_dot s : has_dot s = false → split s = [s].
Proof.
  induction s as [|c s IH]; simpl; [done|].
  intros [Hc Hs]%orb_false_iff. rewrite Hc, (IH Hs). done.
Qed.

Lemma split_app_dot a b :
  has_dot a = false → split (a +:+ "." +:+ b) = a :: split b.
Proof.
  induction a as [|c a IH]; simpl; [done|].
  intros [Hc Ha]%orb_false_iff. rewrite Hc, (IH Ha). done.
Qed.

Lemma split_two a b :
  has_dot a = false → has_dot b = false → split (a +:+ "." +:+ b) = [a; b].
Proof. intros Ha Hb. by rewrite split_app_dot, split_no_dot. Qed.


Lemma split_cons_inv s p ps :
  split s = p :: ps →
  has_dot p = false ∧
  match ps with
  | [] => s = p
  | _ :: _ => ∃ rest, s = p +:+ "." +:+ rest ∧ split rest = ps
  end.
Proof.
  revert p ps. induction s as [|c s IH]; simpl; intros p ps H.
  - by inversion H.
  - destruct (is_dot c) eqn:Hc.
    + inversion H; subst. split; [done|].
      pose proof (split_not_nil s) as Hn.
      destruct (split s) as [|q qs] eqn:Hs; [done|].
      exists s. apply Ascii.eqb_eq in Hc. by subst c.
    + destruct (split s) as [|q qs] eqn:Hs.
      { by destruct (split_not_nil s). }
      inversion H; subst. destruct (IH q ps eq_refl) as [Hq Hrest].
      split; [simpl; by rewrite Hc, Hq|].
      destruct ps as [|r rs].
      * by subst s.
      * destruct Hrest as (rest & -> & Hr). by exists rest.
Qed.

Lemma split_two_inv s p0 p1 :
  split s = [p0; p1] →
  s = p0 +:+ "." +:+ p1 ∧ has_dot p0 = false ∧ has_dot p1 = false.
Proof.
  intros H. destruct (split_cons_inv _ _ _ H) as [H0 (rest & -> & Hr)].
  destruct (split_cons_inv _ _ _ Hr) as [H1 ->]. done.
Qed.

Lemma join_split s : join (split s) = s.
Proof.
  induction s as [|c s IH]; simpl; [done|].
  pose proof (split_not_nil s) as Hn.
  destruct (is_dot c) eqn:Hc.
  - apply Ascii.eqb_eq in Hc. subst c.
    destruct (split s) as [|q qs]; [done|]. simpl in *. by rewrite IH.
  - destruct (split s) as [|q qs]; [done|].
    destruct qs as [|r rs]; simpl in *; by rewrite <- IH.
Qed.

Lemma has_dot_app a b : has_dot (a +:+ b) = has_dot a || has_dot b.
Proof. induction a as [|c a IH]; simpl; [done|]. by rewrite IH, orb_assoc. Qed.

Lemma split_parts_no_dot s : Forall (λ p, has_dot p = false) (split s).
Proof.
  remember (split s) as ps eqn:Hps. revert s Hps.
  induction ps as [|p ps IH]; intros s Hps; [constructor|].
  symmetry in Hps. destruct (split_cons_inv _ _ _ Hps) as [Hp Hrest].
  constructor; [done|]. destruct ps as [|q qs]; [constructor|].
  destruct Hrest as (rest & _ & Hr). by apply (IH rest).
Qed.

(** ** checkExpression *)

Lemma checkExpression_two a b :
  has_dot a = false → has_dot b = false → a +:+ "." +:+ b ≠ "*.*" →
  checkExpression (Some (a +:+ "." +:+ b)) =
    Ok (if String.eqb a "" then "*." +:+ b
        else if String.eqb b "" then a +:+ ".*"
        else a +:+ "." +:+ b).
Proof.
  intros Ha Hb Hne. unfold checkExpression.
  assert (has_dot (a +:+ "." +:+ b) = true) as Hd.
  { rewrite !has_dot_app. simpl. by rewrite orb_true_r. }
  assert (String.eqb (a +:+ "." +:+ b) "" = false) as ->.
  { apply String.eqb_neq. intros E. by rewrite E in Hd. }
  assert (String.eqb (a +:+ "." +:+ b) "*" = false) as ->.
  { apply String.eqb_neq. intros E. by rewrite E in Hd. }
  assert (String.eqb (a +:+ "." +:+ b) "*.*" = false) as ->.
  { by apply String.eqb_neq. }
  simpl. by rewrite split_two.
Qed.

Lemma checkExpression_inv s r :
  checkExpression (Some s) = Ok r →
  (r = "*" ∧ (s = "" ∨ s = "*" ∨ s = "*.*")) ∨
  (∃ p0 p1, s = p0 +:+ "." +:+ p1 ∧ has_dot p0 = false ∧ has_dot p1 = false ∧
            s ≠ "*.*" ∧
            r = if String.eqb p0 "" then "*." +:+ p1
                else if String.eqb p1 "" then p0 +:+ ".*" else s).
Proof.
  unfold checkExpression.
  destruct (String.eqb s "") eqn:E1.
  { apply String.eqb_eq in E1. intros [= <-]. left. auto. }
  destruct (String.eqb s "*") eqn:E2.
  { apply String.eqb_eq in E2. intros [= <-]. left. auto. }
  destruct (String.eqb s "*.*") eqn:E3.
  { apply String.eqb_eq in E3. intros [= <-]. left. auto. }
  simpl. destruct (split s) as [|p0 [|p1 [|p2 ps]]] eqn:Hs; try done.
  intros [= <-]. right. exists p0, p1.
  destruct (split_two_inv _ _ _ Hs) as (Hs' & H0 & H1).
  apply String.eqb_neq in E3. done.
Qed.

Lemma append_String c s t : String c s +:+ t = String c (s +:+ t).
Proof. reflexivity. Qed.

Lemma append_empty t : "" +:+ t = t.
Proof. reflexivity. Qed.

Ltac strings_differ :=
  repeat match goal with
         | H : part_ok _ |- _ => destruct H
         | H : String _ _ = String _ _ |- _ => injection H as ? H; subst
         | H : String _ _ = EmptyString |- _ => discriminate H
         | H : EmptyString = String _ _ |- _ => discriminate H
         | H : String.append ?x _ = _ |- _ =>
             is_var x; destruct x;
             rewrite ?append_String, ?append_empty in H
         | H : String.append EmptyString _ = _ |- _ => rewrite append_empty in H
         | H : String.append (String _ _) _ = _ |- _ => rewrite append_String in H
         | H : ?x = _ |- _ => is_var x; subst x
         | H : ?x ≠ ?x |- _ => by destruct H
         end.

Lemma star_dot_not_canonical : ¬ canonical "*.".
Proof. inversion 1; strings_differ. Qed.

Lemma star_dot_star_not_canonical : ¬ canonical "*.*".
Proof. inversion 1; strings_differ. Qed.

(** Outside the three inputs [.], [*.] and [.*], what [checkExpression]
    returns is canonical. *)
Lemma checkExpression_canonical s r :
  checkExpression s = Ok r →
  s ≠ Some "." → s ≠ Some "*." → s ≠ Some ".*" →
  canonical r.
Proof.
  destruct s as [s|]; [|intros [= <-] _ _ _; constructor].
  intros H N1 N2 N3.
  destruct (checkExpression_inv _ _ H) as [[-> _]|(p0 & p1 & -> & H0 & H1 & Hne & ->)];
    [constructor|].
  destruct (String.eqb p0 "") eqn:E0.
  { apply String.eqb_eq in E0. subst p0. apply canonical_table. split.
    - intros ->. by apply N1.
    - intros ->. by apply N3. }
  apply String.eqb_neq in E0.
  destruct (String.eqb p1 "") eqn:E1.
  { apply String.eqb_eq in E1. subst p1. apply canonical_schema. split; [done|].
    intros ->. by apply N2. }
  apply String.eqb_neq in E1.
  destruct (decide (p0 = "*")) as [->|Hp0].
  { apply (canonical_table p1). split; [done|]. by intros ->. }
  destruct (decide (p1 = "*")) as [->|Hp1].
  { by apply (canonical_schema p0). }
  by apply canonical_exact.
Qed.






(** Revision 3 makes the two-part check and nothing more: an empty part
    stays empty. *)
Lemma Rev3_checkExpression_keeps_empty_parts :
  Rev3.checkExpression (Some ".b") = Ok ".b" ∧
  Rev3.checkExpression (Some "a.") = Ok "a." ∧
  Rev3.checkExpression (Some "a.b") = Ok "a.b" ∧
  Rev3.checkExpression (Some "*.*") = Ok "*" ∧
  Rev3.checkExpression (Some "a.b.c") = Throw InvalidExpression.
Proof. repeat split. Qed.

(** C7: [checkExpression] leaves the four canonical shapes on the inputs
    [.], [*.] and [.*]: a lone dot gives [*.] with no table part, the other
    two give [*.*], which the function itself takes for a spelling of [*]. *)
Theorem checkExpression_not_canonical :
  checkExpression (Some ".") = Ok "*." ∧ ¬ canonical "*." ∧
  checkExpression (Some "*.") = Ok "*.*" ∧
  checkExpression (Some ".*") = Ok "*.*" ∧ ¬ canonical "*.*".
Proof.
  repeat split; try reflexivity.
  - exact star_dot_not_canonical.
  - exact star_dot_star_not_canonical.
Qed.

(** ** The registry: add *)

Lemma alter_insert {A} (f : A → A) (l : nat) (h : list A) (o : A) :
  h !! l = Some o → alter f l h = <[l := f o]> h.
Proof.
  intros Hl. apply list_eq. intros i. destruct (decide (i = l)) as [->|Hne].
  - rewrite list_lookup_alter_eq, Hl, list_lookup_insert_eq; [done|].
    by apply lookup_lt_is_Some_1.
  - by rewrite list_lookup_alter_ne, list_lookup_insert_ne.
Qed.

Lemma insert_lookup_same {A} (l : nat) (h : list A) (o x : A) :
  h !! l = Some o → <[l := x]> h !! l = Some x.
Proof. intros Hl. apply list_lookup_insert_eq. by apply lookup_lt_is_Some_1. Qed.

(** What a call of [add] on a trigger object with a function for handler
    does, write by write. *)
Lemma add_run w l o rnd :
  heap w !! l = Some o → is_function (handler o) = true →
  add (Some l) rnd w =
    let t := or_else (tag o) rnd in
    match checkExpression (expression o) with
    | Throw err =>
        (mkMysqlEvent (<[l := defaulted o rnd]> (heap w)) (triggers w) (tags w),
         Throw err)
    | Ok e =>
        let h := <[l := set_expression e (defaulted o rnd)]> (heap w) in
        if triggers_has t w || tags_has e w
        then (mkMysqlEvent h (triggers w) (tags w), Ok Null)
        else (mkMysqlEvent h (<[t := l]> (triggers w)) (<[e := t]> (tags w)),
              Ok (Tag t))
    end.
Proof.
  intros Hl Hf. unfold add, mbind, M_bind, deref. rewrite Hl, Hf. simpl.
  rewrite (alter_insert (set_enable true) l (heap w) o Hl).
  rewrite (alter_insert _ l _ (set_enable true o))
    by (by eapply insert_lookup_same).
  rewrite list_insert_insert_eq.
  rewrite (insert_lookup_same l (heap w) o _ Hl). simpl.
  rewrite (alter_insert _ l _ _ (insert_lookup_same l (heap w) o _ Hl)).
  rewrite list_insert_insert_eq. fold (defaulted o rnd).
  destruct (checkExpression (expression o)) as [e|err]; simpl; [|done].
  rewrite (alter_insert _ l _ _ (insert_lookup_same l (heap w) o _ Hl)).
  rewrite list_insert_insert_eq.
  unfold triggers_has, tags_has. simpl.
  by destruct (bool_decide (is_Some (triggers w !! or_else (tag o) rnd))
               || bool_decide (is_Some (tags w !! e))).
Qed.

(** C10: [add] writes to the object it is given before it looks at the two
    maps.  [enable] becomes [true] whatever it was; [statement] becomes ALL
    when the object has none and stays what it is otherwise; [tag]
    becomes the generated tag when the object has none or an empty one
    and stays what it is otherwise; [expression] becomes its normal form;
    the handler is not touched.  The writes are there when the call
    returns [null] because the tag written or the normalized expression
    is taken, and the first three when [checkExpression] throws. *)
Theorem add_writes_to_the_trigger w l o rnd :
  heap w !! l = Some o → is_function (handler o) = true →
  ∃ o' t', heap (add (Some l) rnd w).1 !! l = Some o' ∧
        handler o' = handler o ∧
        enable o' = Some true ∧
        statement o' = Some (statement_or_ALL (statement o)) ∧
        (statement o = None → statement o' = Some ALL) ∧
        (∀ s, statement o = Some s → statement o' = Some s) ∧
        tag o' = Some t' ∧ t' = or_else (tag o) rnd ∧
        (tag o = None ∨ tag o = Some "" → t' = rnd) ∧
        (∀ t, tag o = Some t → t ≠ "" → t' = t) ∧
        match checkExpression (expression o) with
        | Ok e =>
            expression o' = Some e ∧
            (triggers_has (or_else (tag o) rnd) w || tags_has e w = true →
             (add (Some l) rnd w).2 = Ok Null) ∧
            (is_Some (triggers w !! t') ∨ is_Some (tags w !! e) →
             (add (Some l) rnd w).2 = Ok Null)
        | Throw err =>
            expression o' = expression o ∧ (add (Some l) rnd w).2 = Throw err
        end.
Proof.
  intros Hl Hf. rewrite (add_run w l o rnd Hl Hf). cbv zeta.
  assert (statement o = None → statement_or_ALL (statement o) = ALL) as Hs1
    by (by intros ->).
  assert (∀ s, statement o = Some s → statement_or_ALL (statement o) = s) as Hs2
    by (by intros s ->).
  assert (tag o = None ∨ tag o = Some "" → or_else (tag o) rnd = rnd) as Ht1
    by (by intros [-> | ->]).
  assert (∀ t, tag o = Some t → t ≠ "" → or_else (tag o) rnd = t) as Ht2.
  { intros t -> Ht. simpl. apply String.eqb_neq in Ht. by rewrite Ht. }
  destruct (checkExpression (expression o)) as [e|err].
  - exists (set_expression e (defaulted o rnd)), (or_else (tag o) rnd).
    assert (is_Some (triggers w !! or_else (tag o) rnd) ∨ is_Some (tags w !! e) →
            triggers_has (or_else (tag o) rnd) w || tags_has e w = true) as Htaken.
    { unfold triggers_has, tags_has. intros [H|H]; apply orb_true_iff;
        [left|right]; by apply bool_decide_eq_true_2. }
    destruct (triggers_has (or_else (tag o) rnd) w || tags_has e w) eqn:E; simpl;
      rewrite (insert_lookup_same l (heap w) o _ Hl).
    + repeat split; try done.
      * intros H. by rewrite (Hs1 H).
      * intros s H. by rewrite (Hs2 s H).
    + repeat split; try done.
      * intros H. by rewrite (Hs1 H).
      * intros s H. by rewrite (Hs2 s H).
      * intros H. by apply Htaken in H.
  - exists (defaulted o rnd), (or_else (tag o) rnd). simpl.
    rewrite (insert_lookup_same l (heap w) o _ Hl). repeat split; try done.
    + intros H. by rewrite (Hs1 H).
    + intros s H. by rewrite (Hs2 s H).
Qed.

Lemma add_writes_to_the_trigger_witness :
  (∃ o', heap (add (Some 1) "0rnd" (after_add taken_tag_disabled)).1 !! 1 = Some o' ∧
         handler o' = Function 1 ∧
         enable o' = Some true ∧
         statement o' = Some ALL ∧
         tag o' = Some "t" ∧
         expression o' = Some "*.b" ∧
         (add (Some 1) "0rnd" (after_add taken_tag_disabled)).2 = Ok Null) ∧
  (∃ o', heap (add (Some 1) "0rnd" (after_add other_subscriber)).1 !! 1 = Some o' ∧
         handler o' = Function 1 ∧
         enable o' = Some true ∧
         statement o' = Some UPDATE ∧
         tag o' = Some "0rnd" ∧
         expression o' = Some "shop.*").
Proof.
  split.
  - destruct (add_writes_to_the_trigger (after_add taken_tag_disabled) 1
                taken_tag_disabled "0rnd" eq_refl eq_refl)
      as (o' & t' & Hl & Hh & He & _ & Hs & _ & Ht & _ & _ & Ht' & Hx & _ & Hnull).
    exists o'. split; [exact Hl|]. split; [exact Hh|]. split; [exact He|].
    split; [exact (Hs eq_refl)|].
    assert (t' = "t") as Heq by (apply (Ht' "t"); [reflexivity|discriminate]).
    split; [by rewrite Ht, Heq|]. split; [exact Hx|].
    apply Hnull. left. rewrite Heq. vm_compute. eexists. reflexivity.
  - destruct (add_writes_to_the_trigger (after_add other_subscriber) 1
                other_subscriber "0rnd" eq_refl eq_refl)
      as (o' & t' & Hl & Hh & He & _ & _ & Hs & Ht & _ & Ht' & _ & Hx & _).
    exists o'. split; [exact Hl|]. split; [exact Hh|]. split; [exact He|].
    split; [exact (Hs UPDATE eq_refl)|].
    split; [rewrite Ht; f_equal; apply Ht'; by left|]. exact Hx.
Defined.

(** C3, amended: for a trigger with a function for handler, when
    [checkExpression] accepts the expression, [add] returns [null] and
    leaves both maps as they were if the tag or the normalized expression
    is taken, and otherwise enters the trigger in both maps and returns
    the tag; when [checkExpression] throws, [add] throws the same error,
    whether the tag is taken or not, and leaves both maps as they were.
    No object but the one passed is written to. *)
Theorem add_rejects_or_registers w l o rnd :
  heap w !! l = Some o → is_function (handler o) = true →
  let t := or_else (tag o) rnd in
  let w' := (add (Some l) rnd w).1 in
  let r := (add (Some l) rnd w).2 in
  match checkExpression (expression o) with
  | Ok e =>
      (is_Some (triggers w !! t) ∨ is_Some (tags w !! e) →
       r = Ok Null ∧ triggers w' = triggers w ∧ tags w' = tags w) ∧
      (triggers w !! t = None ∧ tags w !! e = None →
       r = Ok (Tag t) ∧ triggers w' = <[t := l]> (triggers w) ∧
       tags w' = <[e := t]> (tags w))
  | Throw err =>
      r = Throw err ∧ triggers w' = triggers w ∧ tags w' = tags w
  end ∧
  (∀ l', l' ≠ l → heap w' !! l' = heap w !! l').
Proof.
  intros Hl Hf. cbv zeta. rewrite (add_run w l o rnd Hl Hf). cbv zeta.
  unfold triggers_has, tags_has.
  destruct (checkExpression (expression o)) as [e|err].
  - split; [split|].
    + intros Htaken.
      assert (bool_decide (is_Some (triggers w !! or_else (tag o) rnd))
              || bool_decide (is_Some (tags w !! e)) = true) as ->; [|done].
      apply orb_true_iff.
      destruct Htaken; [left|right]; by apply bool_decide_eq_true_2.
    + intros [Ht Hexp].
      assert (bool_decide (is_Some (triggers w !! or_else (tag o) rnd))
              || bool_decide (is_Some (tags w !! e)) = false) as ->; [|done].
      rewrite Ht, Hexp. apply orb_false_iff.
      split; apply bool_decide_eq_false_2; by intros [? ?].
    + intros l' Hne.
      destruct (bool_decide (is_Some (triggers w !! or_else (tag o) rnd))
                || bool_decide (is_Some (tags w !! e))); simpl;
        by rewrite list_lookup_insert_ne.
  - split; [done|]. intros l' Hne. simpl. by rewrite list_lookup_insert_ne.
Qed.

Lemma add_rejects_or_registers_witness :
  let w := after_add other_subscriber in
  let w' := (add (Some 1) "0rnd" w).1 in
  let r := (add (Some 1) "0rnd" w).2 in
  ((is_Some (triggers w !! "0rnd") ∨ is_Some (tags w !! "shop.*") →
    r = Ok Null ∧ triggers w' = triggers w ∧ tags w' = tags w) ∧
   (triggers w !! "0rnd" = None ∧ tags w !! "shop.*" = None →
    r = Ok (Tag "0rnd") ∧ triggers w' = <["0rnd" := 1]> (triggers w) ∧
    tags w' = <["shop.*" := "0rnd"]> (tags w))) ∧
  (∀ l', l' ≠ 1 → heap w' !! l' = heap w !! l').
Proof.
  exact (add_rejects_or_registers (after_add other_subscriber) 1
           other_subscriber "0rnd" eq_refl eq_refl).
Defined.

(** C3 as stated fails: the tag of the trigger is taken, and [add] throws
    the InvalidExpression error, where a [null] is promised. *)
Lemma add_throws_with_taken_tag :
  let w := after_add taken_tag_bad_expression in
  heap w !! 1 = Some taken_tag_bad_expression ∧
  is_function (handler taken_tag_bad_expression) = true ∧
  triggers w !! or_else (tag taken_tag_bad_expression) "0rnd" = Some 0 ∧
  (add (Some 1) "0rnd" w).2 = Throw InvalidExpression ∧
  (add (Some 1) "0rnd" w).2 ≠ Ok Null.
Proof. vm_compute. repeat split; discriminate. Qed.

(** The same object passed twice: the second call is refused, the maps
    keep their entries, and the registered trigger, stopped in between, is
    enabled again by the write to the shared object. *)
Lemma add_again_enables_registered_trigger :
  let w := run [OpAdd (Some 0) "0rnd"; OpStop "t"] (fresh [subscriber 0 "t" "a.b"]) in
  let w' := (add (Some 0) "0rnd" w).1 in
  enable <$> heap w !! 0 = Some (Some false) ∧
  (add (Some 0) "0rnd" w).2 = Ok Null ∧
  triggers w' = triggers w ∧ tags w' = tags w ∧
  enable <$> heap w' !! 0 = Some (Some true).
Proof. vm_compute. repeat split. Qed.

(** ** The registry: stop, start, remove and the two maps *)

Lemma resolvesb_sound w : resolvesb w = true → resolves w.
Proof.
  unfold resolvesb. rewrite forallb_forall. intros H e t Het.
  assert (In (e, t) (map_to_list (tags w))) as Hin.
  { apply list_elem_of_In. by apply elem_of_map_to_list. }
  specialize (H (e, t) Hin). simpl in H.
  destruct (triggers w !! t) as [l|]; [|done].
  apply bool_decide_eq_true in H. destruct H as [trg Htrg]. by exists l, trg.
Qed.

Lemma tags_nonemptyb_sound w : tags_nonemptyb w = true → tags_nonempty w.
Proof.
  unfold tags_nonemptyb. rewrite forallb_forall. intros H e t Het ->.
  assert (In (e, "") (map_to_list (tags w))) as Hin.
  { apply list_elem_of_In. by apply elem_of_map_to_list. }
  specialize (H (e, "") Hin). done.
Qed.

(** [remove] deletes the entry of [triggers] and leaves [tags] as it is. *)
Lemma remove_run w t :
  triggers (remove t w).1 = delete t (triggers w) ∧
  tags (remove t w).1 = tags w ∧
  heap (remove t w).1 = heap w.
Proof. done. Qed.

Lemma stop_run w t :
  triggers (stop t w).1 = triggers w ∧ tags (stop t w).1 = tags w ∧
  length (heap (stop t w).1) = length (heap w).
Proof.
  unfold stop, mbind, M_bind, gets. simpl.
  destruct (triggers w !! t); simpl; [|done]. by rewrite length_alter.
Qed.

Lemma start_run w t :
  triggers (start t w).1 = triggers w ∧ tags (start t w).1 = tags w ∧
  length (heap (start t w).1) = length (heap w).
Proof.
  unfold start, mbind, M_bind, gets. simpl.
  destruct (triggers w !! t); simpl; [|done]. by rewrite length_alter.
Qed.

Lemma consistent_resolves w : consistent w → resolves w.
Proof.
  intros [Hobj Htag] e t Het. destruct (Htag e t Het) as [l Hl].
  destruct (lookup_lt_is_Some_2 _ _ (Hobj t l Hl)) as [trg Htrg].
  by exists l, trg.
Qed.

Lemma add_consistent w trg rnd : consistent w → consistent (add trg rnd w).1.
Proof.
  intros Hc. destruct trg as [l|]; [|done].
  destruct (heap w !! l) as [o|] eqn:Hl.
  2:{ unfold add, mbind, M_bind, deref. by rewrite Hl. }
  destruct (is_function (handler o)) eqn:Hf.
  2:{ unfold add, mbind, M_bind, deref. by rewrite Hl, Hf. }
  rewrite (add_run w l o rnd Hl Hf). cbv zeta.
  destruct Hc as [Hobj Htag].
  destruct (checkExpression (expression o)) as [e|err].
  - destruct (triggers_has (or_else (tag o) rnd) w || tags_has e w); split; simpl.
    + intros t l' Ht. rewrite length_insert. by eapply Hobj.
    + done.
    + intros t l' Ht. rewrite length_insert.
      destruct (decide (t = or_else (tag o) rnd)) as [->|Hne].
      * rewrite lookup_insert_eq in Ht. injection Ht as <-.
        by apply lookup_lt_is_Some_1.
      * rewrite lookup_insert_ne in Ht by done. by eapply Hobj.
    + intros e' t Het.
      destruct (decide (e' = e)) as [->|Hne].
      * rewrite lookup_insert_eq in Het. injection Het as <-.
        by rewrite lookup_insert_eq.
      * rewrite lookup_insert_ne in Het by done.
        destruct (decide (t = or_else (tag o) rnd)) as [->|Hne'].
        -- by rewrite lookup_insert_eq.
        -- rewrite lookup_insert_ne by done. by eapply Htag.
  - split; simpl; [|done].
    intros t l' Ht. rewrite length_insert. by eapply Hobj.
Qed.

Lemma step_consistent w o :
  is_remove o = false → consistent w → consistent (step w o).
Proof.
  intros Hr Hc. destruct o as [trg rnd|t|t|t]; simpl; [| | |done].
  - by apply add_consistent.
  - destruct Hc as [Hobj Htag]. destruct (start_run w t) as (Ht & Hg & Hlen).
    split; rewrite ?Ht, ?Hg, ?Hlen; done.
  - destruct Hc as [Hobj Htag]. destruct (stop_run w t) as (Ht & Hg & Hlen).
    split; rewrite ?Ht, ?Hg, ?Hlen; done.
Qed.

(** Without [remove], every state the public operations reach from a
    fresh instance keeps the two maps consistent. *)
Lemma run_consistent ops w :
  forallb (λ o, negb (is_remove o)) ops = true → consistent w →
  consistent (run ops w).
Proof.
  revert w. induction ops as [|o ops IH]; intros w Hops Hc; [done|].
  simpl in Hops. apply andb_true_iff in Hops as [Ho Hops].
  apply negb_true_iff in Ho. simpl. apply IH; [done|]. by apply step_consistent.
Qed.

Lemma fresh_consistent objs : consistent (fresh objs).
Proof. split; intros ? ? H; simpl in H; by rewrite lookup_empty in H. Qed.

(** ** getTriggers *)

Lemma fires_accepts (act : STATEMENTS) trg : fires act trg = accepts act trg.
Proof. unfold fires, accepts. apply andb_comm. Qed.

Lemma visit_resolved w (act : STATEMENTS) found exp :
  resolves w → tags_nonempty w →
  visit w act found exp = Ok (found ++ match_candidate w act exp)%list.
Proof.
  intros Hres Hne. unfold visit, match_candidate, owner.
  destruct (tags w !! exp) as [t|] eqn:Ht; simpl; [|by rewrite app_nil_r].
  destruct (Hres exp t Ht) as (l & trg & Hl & Htrg).
  apply Hne in Ht. apply String.eqb_neq in Ht. rewrite Ht, Hl. simpl.
  rewrite Htrg. simpl. rewrite fires_accepts.
  destruct (accepts act trg); [done|by rewrite app_nil_r].
Qed.

Lemma foldM_visit w (act : STATEMENTS) exps found :
  resolves w → tags_nonempty w →
  foldM (visit w act) found exps
  = Ok (found ++ concat (map (match_candidate w act) exps))%list.
Proof.
  intros Hres Hne. revert found.
  induction exps as [|exp exps IH]; intros found; simpl.
  - by rewrite app_nil_r.
  - rewrite visit_resolved by done. simpl. rewrite IH. by rewrite app_assoc.
Qed.

Lemma pathOptions_pathOf db tbl :
  has_dot db = false → has_dot tbl = false →
  pathOptions (pathOf db tbl) = candidates db tbl.
Proof. intros Hd Ht. unfold pathOptions, pathOf. by rewrite split_two. Qed.

Lemma match_candidate_length w act exp :
  (length (match_candidate w act exp) ≤ 1)%nat.
Proof.
  unfold match_candidate. destruct (owner w exp) as [[l trg]|]; simpl; [|lia].
  destruct (accepts act trg); simpl; lia.
Qed.

(** On a state whose expression entries all resolve, [getTriggers] does
    not throw, whatever the path. *)
Lemma getTriggers_total w path act :
  resolves w → ∃ found, getTriggers w path act = Ok found.
Proof.
  intros Hres. unfold getTriggers. generalize (pathOptions path) as exps.
  generalize (@nil nat) as found. intros found exps. revert found.
  induction exps as [|exp exps IH]; intros found; simpl; [by eexists|].
  assert (∃ found', visit w act found exp = Ok found') as [found' ->].
  { unfold visit. destruct (tags w !! exp) as [t|] eqn:Ht; [|by eexists].
    destruct (String.eqb t ""); [by eexists|].
    destruct (Hres exp t Ht) as (l & trg & -> & ->). by eexists. }
  simpl. apply IH.
Qed.

(** [getTriggers] computes the matcher of the specification. *)
Lemma getTriggers_refines w db tbl (act : STATEMENTS) :
  resolves w → tags_nonempty w → has_dot db = false → has_dot tbl = false →
  getTriggers w (pathOf db tbl) act = Ok (match_spec w db tbl act).
Proof.
  intros Hres Hne Hd Ht. unfold getTriggers, match_spec.
  rewrite pathOptions_pathOf by done. by rewrite foldM_visit.
Qed.

(** C1, amended: on a state whose expression entries hold non-empty tags
    that resolve to a trigger, and for a schema name and a table name
    without a dot, [getTriggers] returns the triggers that own one of the
    four candidates, are enabled and take the action, in the order of the
    candidates: at most four, and each candidate counts on its own. *)
Theorem getTriggers_matches w db tbl (act : STATEMENTS) :
  resolves w → tags_nonempty w → has_dot db = false → has_dot tbl = false →
  getTriggers w (pathOf db tbl) act = Ok (match_spec w db tbl act) ∧
  (length (match_spec w db tbl act) ≤ 4)%nat ∧
  (∀ exp l trg, exp ∈ candidates db tbl → owner w exp = Some (l, trg) →
                accepts act trg = true → l ∈ match_spec w db tbl act).
Proof.
  intros Hres Hne Hd Ht. split; [|split].
  - by apply getTriggers_refines.
  - unfold match_spec, candidates. simpl. rewrite !length_app. simpl.
    pose proof (match_candidate_length w act "*").
    pose proof (match_candidate_length w act (db +:+ ".*")).
    pose proof (match_candidate_length w act ("*." +:+ tbl)).
    pose proof (match_candidate_length w act (db +:+ "." +:+ tbl)).
    lia.
  - intros exp l trg Hexp Hown Hacc. unfold match_spec.
    apply list_elem_of_In, in_concat. exists (match_candidate w act exp). split.
    + apply in_map. by apply list_elem_of_In.
    + unfold match_candidate. rewrite Hown, Hacc. by left.
Qed.

Lemma getTriggers_matches_witness :
  getTriggers four_subscribers (pathOf "shop" "orders") INSERT
  = Ok (match_spec four_subscribers "shop" "orders" INSERT) ∧
  (length (match_spec four_subscribers "shop" "orders" INSERT) ≤ 4)%nat ∧
  (∀ exp l trg, exp ∈ candidates "shop" "orders" →
                owner four_subscribers exp = Some (l, trg) →
                accepts INSERT trg = true →
                l ∈ match_spec four_subscribers "shop" "orders" INSERT).
Proof.
  apply (getTriggers_matches four_subscribers "shop" "orders" INSERT).
  - apply resolvesb_sound. vm_compute. reflexivity.
  - apply tags_nonemptyb_sound. vm_compute. reflexivity.
  - reflexivity.
  - reflexivity.
Defined.

(** The example of the specification: of the four subscriptions, an INSERT
    on [shop.orders] reaches the one on [*] and the one on [*.orders]; a
    DELETE reaches [*] and [shop.orders]. *)
Lemma four_subscribers_matches :
  getTriggers four_subscribers (pathOf "shop" "orders") INSERT = Ok [0; 2] ∧
  getTriggers four_subscribers (pathOf "shop" "orders") UPDATE = Ok [0; 1] ∧
  getTriggers four_subscribers (pathOf "shop" "orders") DELETE = Ok [0; 3].
Proof. vm_compute. repeat split. Qed.

(** C1 as stated fails.  A table name with a dot: [getTriggers] splits the
    path [a.b.c] into three parts and keeps the first two, so the trigger
    on [a.b] is returned for table [b.c] of schema [a], where none of the
    four candidates has an owner.  An empty tag in the expression map: the
    test [!tag] takes it for a missing entry and the owner is left out. *)
Lemma getTriggers_differs_from_match_spec :
  resolves (after_add other_subscriber) ∧
  getTriggers (after_add other_subscriber) (pathOf "a" "b.c") INSERT = Ok [0] ∧
  match_spec (after_add other_subscriber) "a" "b.c" INSERT = [] ∧
  resolves empty_tag_state ∧
  getTriggers empty_tag_state (pathOf "shop" "orders") INSERT = Ok [] ∧
  match_spec empty_tag_state "shop" "orders" INSERT = [0].
Proof.
  split; [apply resolvesb_sound; vm_compute; reflexivity|].
  split; [vm_compute; reflexivity|].
  split; [vm_compute; reflexivity|].
  split; [apply resolvesb_sound; vm_compute; reflexivity|].
  split; vm_compute; reflexivity.
Qed.

(** ** remove and the expression map *)

Lemma visit_throws_TypeError w act found exp e :
  visit w act found exp = Throw e → e = TypeError.
Proof.
  unfold visit. destruct (tags w !! exp) as [t|]; [|done].
  destruct (String.eqb t ""); [done|].
  destruct (triggers w !! t) as [l|]; [|by intros [= <-]].
  destruct (heap w !! l); [done|by intros [= <-]].
Qed.

(** Once a registered tag is removed, [getTriggers] throws on every path
    one of whose candidates is the expression of that tag. *)
Lemma getTriggers_after_remove w t e path act :
  tags w !! e = Some t → t ≠ "" → e ∈ pathOptions path →
  getTriggers (remove t w).1 path act = Throw TypeError.
Proof.
  intros He Ht Hin. unfold getTriggers.
  generalize (@nil nat) as found. revert Hin.
  generalize (pathOptions path) as exps.
  induction exps as [|exp exps IH]; intros Hin found.
  { by apply elem_of_nil in Hin. }
  cbn [foldM].
  destruct (decide (exp = e)) as [->|Hne].
  - assert (visit (remove t w).1 act found e = Throw TypeError) as ->; [|done].
    destruct (remove_run w t) as (Htr & Htg & _).
    unfold visit. rewrite Htg, He.
    apply String.eqb_neq in Ht. rewrite Ht, Htr. by rewrite lookup_delete_eq.
  - destruct (visit (remove t w).1 act found exp) as [found'|err] eqn:Hv.
    + cbn [mbind result_bind]. apply IH.
      apply elem_of_cons in Hin as [->|Hin]; done.
    + cbn [mbind result_bind]. by rewrite (visit_throws_TypeError _ _ _ _ _ Hv).
Qed.

(** Once a registered tag is removed, its expression stays taken: [add]
    refuses every trigger that asks for it. *)
Lemma add_refused_after_remove w t e l o rnd :
  tags w !! e = Some t →
  heap w !! l = Some o → is_function (handler o) = true →
  checkExpression (expression o) = Ok e →
  (add (Some l) rnd (remove t w).1).2 = Ok Null.
Proof.
  intros He Hl Hf Hexp.
  rewrite (add_run (remove t w).1 l o rnd Hl Hf), Hexp. cbv zeta.
  assert (tags_has e (remove t w).1 = true) as ->.
  { unfold tags_has. destruct (remove_run w t) as (_ & -> & _).
    rewrite He. by apply bool_decide_eq_true_2. }
  by rewrite orb_true_r.
Qed.

(** C2: after [add] and [remove] of tag [t] the entry of [t] is gone from
    [triggers] and the entry [a.b -> t] is still in [tags]: the expression
    entry resolves to nothing, and an [add] of [a.b] under the new tag [u]
    returns [null]. *)
Theorem remove_keeps_the_expression_entry :
  let w := after_remove same_expression_new_tag in
  triggers w !! "t" = None ∧
  tags w !! "a.b" = Some "t" ∧
  ¬ resolves w ∧
  (add (Some 1) "0rnd" w).2 = Ok Null ∧
  triggers (add (Some 1) "0rnd" w).1 !! "u" = None.
Proof.
  cbv zeta. split; [vm_compute; reflexivity|].
  split; [vm_compute; reflexivity|].
  split; [|split; vm_compute; reflexivity].
  intros Hres. destruct (Hres "a.b" "t") as (l & trg & Hl & _).
  - vm_compute. reflexivity.
  - vm_compute in Hl. discriminate Hl.
Qed.

(** C9: the state reached from the fresh instance by [add] and [remove]
    of the same tag makes [getTriggers] throw a TypeError on the path of
    the removed expression: the expression entry is found, its trigger is
    not. *)
Theorem getTriggers_throws_after_remove :
  after_remove other_subscriber
  = run [OpAdd (Some 0) "0rnd"; OpRemove "t"]
        (fresh [subscriber 0 "t" "a.b"; other_subscriber]) ∧
  tags (after_remove other_subscriber) !! "a.b" = Some "t" ∧
  triggers (after_remove other_subscriber) !! "t" = None ∧
  getTriggers (after_remove other_subscriber) (pathOf "a" "b") INSERT
  = Throw TypeError.
Proof. split; [reflexivity|]. vm_compute. repeat split. Qed.

Lemma or_else_nonempty s d : d ≠ "" → or_else s d ≠ "".
Proof.
  intros Hd. unfold or_else. destruct s as [v|]; [|done].
  destruct (String.eqb v "") eqn:E; [done|]. by apply String.eqb_neq.
Qed.

Lemma add_tags_nonempty w trg rnd :
  rnd ≠ "" → tags_nonempty w → tags_nonempty (add trg rnd w).1.
Proof.
  intros Hrnd Hne. destruct trg as [l|]; [|done].
  destruct (heap w !! l) as [o|] eqn:Hl.
  2:{ unfold add, mbind, M_bind, deref. by rewrite Hl. }
  destruct (is_function (handler o)) eqn:Hf.
  2:{ unfold add, mbind, M_bind, deref. by rewrite Hl, Hf. }
  rewrite (add_run w l o rnd Hl Hf). cbv zeta.
  destruct (checkExpression (expression o)) as [e|err]; [|done].
  destruct (triggers_has (or_else (tag o) rnd) w || tags_has e w); [done|].
  intros e' t. simpl. destruct (decide (e' = e)) as [->|Hd].
  - rewrite lookup_insert_eq. intros [= <-]. by apply or_else_nonempty.
  - rewrite lookup_insert_ne by done. apply Hne.
Qed.

Lemma run_tags_nonempty ops w :
  forallb generated_ok ops = true → tags_nonempty w → tags_nonempty (run ops w).
Proof.
  revert w. induction ops as [|o ops IH]; intros w Hops Hne; [done|].
  simpl in Hops. apply andb_true_iff in Hops as [Ho Hops].
  simpl. apply IH; [done|]. destruct o as [trg rnd|t|t|t]; simpl.
  - apply add_tags_nonempty; [|done]. simpl in Ho.
    apply negb_true_iff in Ho. by apply String.eqb_neq.
  - destruct (start_run w t) as (_ & Hg & _). intros e t'. rewrite Hg. apply Hne.
  - destruct (stop_run w t) as (_ & Hg & _). intros e t'. rewrite Hg. apply Hne.
  - done.
Qed.

(** Without [remove] in the sequence, [getTriggers] returns on every
    state reached from a fresh instance. *)
Lemma getTriggers_total_without_remove objs ops path act :
  forallb (λ o, negb (is_remove o)) ops = true →
  ∃ found, getTriggers (run ops (fresh objs)) path act = Ok found.
Proof.
  intros Hops. apply getTriggers_total, consistent_resolves, run_consistent;
    [done|apply fresh_consistent].
Qed.

(** The matcher on the states the public operations reach without
    [remove]: it returns what [match_spec] says, for names without a dot. *)
Lemma getTriggers_matches_reachable objs ops db tbl (act : STATEMENTS) :
  forallb (λ o, negb (is_remove o)) ops = true →
  forallb generated_ok ops = true →
  has_dot db = false → has_dot tbl = false →
  getTriggers (run ops (fresh objs)) (pathOf db tbl) act
  = Ok (match_spec (run ops (fresh objs)) db tbl act).
Proof.
  intros Hrm Hgen Hd Ht. apply getTriggers_refines; try done.
  - apply consistent_resolves, run_consistent; [done|apply fresh_consistent].
  - apply run_tags_nonempty; [done|]. intros e t H. simpl in H.
    by rewrite lookup_empty in H.
Qed.

(** ** The event builder *)

Lemma compare_objects before after set key :
  compare (JObj before) (JObj after) set key
  = Ok (if differs before after key then set_add key set else set).
Proof.
  unfold compare, differs. simpl.
  by destruct (String.eqb (ToString (lookup_prop before key))
                          (ToString (lookup_prop after key))).
Qed.

Lemma set_add_elem key set k : k ∈ set_add key set ↔ k ∈ set ∨ k = key.
Proof.
  unfold set_add. case_bool_decide as Hin.
  - split; [by left|]. intros [?| ->]; done.
  - rewrite elem_of_app, list_elem_of_singleton. done.
Qed.

Lemma set_add_NoDup key set : NoDup set → NoDup (set_add key set).
Proof.
  intros Hnd. unfold set_add. case_bool_decide as Hin; [done|].
  apply NoDup_app. split; [done|]. split.
  - intros x Hx [->|[]%elem_of_nil]%elem_of_cons. done.
  - apply NoDup_singleton.
Qed.

Lemma changed_from before after ks set :
  NoDup set →
  ∃ cs, foldM (compare (JObj before) (JObj after)) set ks = Ok cs ∧
        NoDup cs ∧
        ∀ k, k ∈ cs ↔ k ∈ set ∨ (k ∈ ks ∧ differs before after k = true).
Proof.
  revert set. induction ks as [|key ks IH]; intros set Hnd; cbn [foldM].
  - exists set. split; [done|]. split; [done|]. intros k. split; [by left|].
    intros [?|[[]%elem_of_nil _]]; done.
  - rewrite compare_objects. cbn [mbind result_bind].
    destruct (differs before after key) eqn:Hd.
    + destruct (IH (set_add key set) (set_add_NoDup _ _ Hnd)) as (cs & -> & Hcs & Hk).
      exists cs. split; [done|]. split; [done|]. intros k. rewrite Hk.
      rewrite set_add_elem, elem_of_cons. split.
      * intros [[?| ->]|[? ?]]; auto.
      * intros [?|[[->|?] ?]]; auto.
    + destruct (IH set Hnd) as (cs & -> & Hcs & Hk).
      exists cs. split; [done|]. split; [done|]. intros k. rewrite Hk.
      rewrite elem_of_cons. split.
      * intros [?|[? ?]]; auto.
      * intros [?|[[->|?] ?]]; auto. congruence.
Qed.

Lemma changed_objects before after :
  ∃ cs, changed (JObj before) (JObj after) = Ok cs ∧
        NoDup cs ∧
        ∀ k, k ∈ cs ↔ k ∈ map fst before ∧ differs before after k = true.
Proof.
  destruct (changed_from before after (map fst before) [] (NoDup_nil_2))
    as (cs & Hcs & Hnd & Hk).
  exists cs. split; [done|]. split; [done|]. intros k. rewrite Hk. split.
  - intros [[]%elem_of_nil|?]; done.
  - by right.
Qed.

(** When the before-image names each column once, the changed columns
    are the columns that differ, in the order of the before-image. *)
Lemma changed_filter before after ks set :
  NoDup (set ++ ks) →
  foldM (compare (JObj before) (JObj after)) set ks
  = Ok (set ++ filter (λ k, differs before after k = true) ks)%list.
Proof.
  revert set. induction ks as [|key ks IH]; intros set Hnd; cbn [foldM].
  - by rewrite app_nil_r.
  - rewrite compare_objects. cbn [mbind result_bind].
    assert (key ∉ set) as Hnotin.
    { apply NoDup_app in Hnd as (_ & Hdis & _). intros Hin.
      apply (Hdis key Hin). by left. }
    destruct (differs before after key) eqn:Hd.
    + unfold set_add. rewrite bool_decide_eq_false_2 by done.
      rewrite IH.
      * rewrite filter_cons_True by done. by rewrite <- app_assoc.
      * by rewrite <- app_assoc.
    + rewrite IH.
      * rewrite filter_cons_False; [done|]. by rewrite Hd.
      * apply NoDup_app in Hnd as (Hs & Hdis & Hks).
        apply NoDup_cons in Hks as [_ Hks]. apply NoDup_app. split; [done|].
        split; [|done]. intros x Hx Hin. apply (Hdis x Hx). by right.
Qed.

Lemma fillEvent_update event before after :
  ∃ e, fillEvent UPDATE event (updateRow before after) = Ok e ∧
       reflects_update e before after ∧
       action e = action event ∧ timestamp e = timestamp event ∧
       database e = database event ∧ table e = table event.
Proof.
  destruct (changed_objects before after) as (cs & Hcs & Hnd & Hk).
  exists (set_changedColumns cs
            (set_data_new (JObj after) (set_data_old (JObj before) event))).
  split; [|done].
  unfold fillEvent. simpl. change (get (updateRow before after) "before")
    with (Ok (JObj before) : result jsval). simpl.
  by rewrite Hcs.
Qed.

(** The loop of [Rev2.getManyEvents] (revision 2): each row gives one event,
    pushed after the events of the rows before it. *)
Lemma Rev2_getManyEvents_push (f : jsval → result IEvent) rows events payloads :
  Forall2 (λ row e, f row = Ok e) rows events →
  foldM (λ payloads row, event ← f row; mret (payloads ++ [event])%list)
        payloads rows
  = Ok (payloads ++ events)%list.
Proof.
  intros H. revert payloads.
  induction H as [|row e rows events Hrow _ IH]; intros payloads; simpl.
  - by rewrite app_nil_r.
  - rewrite Hrow. simpl. rewrite IH. by rewrite <- app_assoc.
Qed.

Lemma Rev2_getManyEvents_insert rows template :
  Rev2.getManyEvents INSERT rows template
  = Ok (map (λ row, set_data_new row (Rev2.getEventTemplate INSERT template)) rows).
Proof.
  unfold Rev2.getManyEvents. rewrite (Rev2_getManyEvents_push _ rows
    (map (λ row, set_data_new row (Rev2.getEventTemplate INSERT template)) rows)); [done|].
  induction rows; constructor; done.
Qed.

Lemma Rev2_getManyEvents_delete rows template :
  Rev2.getManyEvents DELETE rows template
  = Ok (map (λ row, set_data_old row (Rev2.getEventTemplate DELETE template)) rows).
Proof.
  unfold Rev2.getManyEvents. rewrite (Rev2_getManyEvents_push _ rows
    (map (λ row, set_data_old row (Rev2.getEventTemplate DELETE template)) rows)); [done|].
  induction rows; constructor; done.
Qed.

Lemma Rev2_getManyEvents_update rows template :
  Forall is_update_row rows →
  ∃ events, Rev2.getManyEvents UPDATE rows template = Ok events ∧
    Forall2 (λ row e, fillEvent UPDATE (Rev2.getEventTemplate UPDATE template) row = Ok e)
            rows events.
Proof.
  intros Hrows.
  assert (∃ events, Forall2 (λ row e,
            fillEvent UPDATE (Rev2.getEventTemplate UPDATE template) row = Ok e)
            rows events) as [events Hev].
  { induction Hrows as [|row rows (b & a & ->) _ [events IH]].
    - exists []. constructor.
    - destruct (fillEvent_update (Rev2.getEventTemplate UPDATE template) b a)
        as (e & He & _).
      exists (e :: events). by constructor. }
  exists events. split; [|done]. unfold Rev2.getManyEvents.
  by rewrite (Rev2_getManyEvents_push _ rows events).
Qed.

Lemma fillEvent_frame act event row e :
  fillEvent act event row = Ok e →
  action e = action event ∧ timestamp e = timestamp event ∧
  database e = database event ∧ table e = table event.
Proof.
  unfold fillEvent. destruct act as [[]|key]; simpl; try (intros [= <-]; done).
  destruct (get row "before") as [before|]; simpl; [|done].
  destruct (get row "after") as [after|]; simpl; [|done].
  destruct (changed before after) as [cs|]; simpl; [|done].
  intros [= <-]. done.
Qed.

Lemma fillEvent_total act event row :
  (act = UPDATE → is_update_row row) → ∃ e, fillEvent act event row = Ok e.
Proof.
  intros Hrow. destruct act; try (by eexists).
  destruct (Hrow eq_refl) as (b & a & ->).
  destruct (fillEvent_update event b a) as (e & He & _). by exists e.
Qed.

(** The one object of revision 1 after the loop is the object each row has
    been written into in turn, and every payload refers to it. *)
Lemma getManyEvents_run act rows ev0 ev payloads :
  foldM (fillEvent act) ev0 rows = Ok ev →
  foldM (λ payloads row,
           o ← read_event 0;
           o' ← lift (fillEvent act o row);
           modify (λ h, <[0 := o']> h);;
           mret (payloads ++ [0])%list)
        payloads rows [ev0]
  = ([ev], Ok (payloads ++ replicate (length rows) 0)%list).
Proof.
  revert ev0 payloads. induction rows as [|row rows IH]; intros ev0 payloads;
    cbn [foldM].
  - intros [= <-]. by rewrite app_nil_r.
  - destruct (fillEvent act ev0 row) as [e|] eqn:He;
      cbn [mbind result_bind]; [|done].
    intros Hrest. unfold mbind at 1. unfold M_bind at 1.
    unfold mbind at 1. unfold M_bind at 1. simpl. rewrite He. simpl.
    rewrite (IH e (payloads ++ [0])%list Hrest).
    by rewrite <- app_assoc.
Qed.

Lemma contents_replicate ev n : contents [ev] (replicate n 0) = replicate n ev.
Proof.
  unfold contents. induction n as [|n IH]; simpl; [done|]. by f_equal.
Qed.

Lemma foldM_fillEvent_app act ev0 rows row ev :
  foldM (fillEvent act) ev0 rows = Ok ev →
  foldM (fillEvent act) ev0 (rows ++ [row]) = fillEvent act ev row.
Proof.
  revert ev0. induction rows as [|r rows IH]; intros ev0; cbn [foldM app].
  - intros [= <-]. by destruct (fillEvent act ev0 row).
  - destruct (fillEvent act ev0 r) as [e|]; cbn [mbind result_bind]; [|done].
    apply IH.
Qed.

Lemma foldM_fillEvent_total act rows ev0 :
  well_formed_rows act rows → ∃ ev, foldM (fillEvent act) ev0 rows = Ok ev.
Proof.
  revert ev0. induction rows as [|row rows IH]; intros ev0 Hwf; [by eexists|].
  destruct (fillEvent_total act ev0 row) as [e He].
  { intros Hact. specialize (Hwf Hact). by inversion Hwf. }
  cbn [foldM]. rewrite He. cbn [mbind result_bind]. apply IH.
  intros Hact. specialize (Hwf Hact). by inversion Hwf.
Qed.

(** The event the UPDATE block has just written carries the before-image
    as [data.old], the after-image as [data.new], and as [changedColumns]
    the columns of the before-image whose values differ once printed with
    [String].  This holds of the block every revision runs on the event
    for a row ([fillEvent]); of the event [getManyEvents] returns for the
    row that ends a batch of update rows; and of the event at the index of
    the row in what [Rev2.getManyEvents] returns.  Number 1 and text 1
    print alike, and so do two objects whatever they hold; the status and
    quantity example gives the status column alone. *)
Lemma update_block_reflects_images :
  (∀ event before after,
     ∃ e, fillEvent UPDATE event (updateRow before after) = Ok e ∧
          reflects_update e before after) ∧
  (∀ rows ev0 before after,
     Forall is_update_row rows →
     ∃ e, getManyEvents 0 UPDATE (rows ++ [updateRow before after]) [ev0]
          = ([e], Ok (replicate (S (length rows)) 0)) ∧
          reflects_update e before after) ∧
  (∀ rows template i before after,
     Forall is_update_row rows → rows !! i = Some (updateRow before after) →
     ∃ events e, Rev2.getManyEvents UPDATE rows template = Ok events ∧
                 events !! i = Some e ∧ reflects_update e before after) ∧
  changed (JObj [("n", JNum 1)]) (JObj [("n", JStr "1")]) = Ok [] ∧
  changed (JObj [("doc", JObj [("a", JNum 1)])])
          (JObj [("doc", JObj [("a", JNum 2)])]) = Ok [] ∧
  changed (JObj status_before) (JObj status_after) = Ok ["status"].
Proof.
  split; [|split; [|split; [|repeat split; reflexivity]]].
  - intros event before after.
    destruct (fillEvent_update event before after) as (e & He & Hr & _).
    by exists e.
  - intros rows ev0 before after Hrows.
    destruct (foldM_fillEvent_total UPDATE rows ev0 (λ _, Hrows)) as [ev Hev].
    destruct (fillEvent_update ev before after) as (e & He & Hr & _).
    exists e. split; [|done]. unfold getManyEvents.
    rewrite (getManyEvents_run UPDATE (rows ++ [updateRow before after]) ev0 e []).
    + by rewrite length_app, Nat.add_comm.
    + by rewrite (foldM_fillEvent_app UPDATE ev0 rows _ ev Hev).
  - intros rows template i before after Hrows Hi.
    destruct (Rev2_getManyEvents_update rows template Hrows) as (events & Hev & Hall).
    destruct (Forall2_lookup_l _ _ _ _ _ Hall Hi) as (e & He & Hfill).
    exists events, e. split; [done|]. split; [done|].
    destruct (fillEvent_update (Rev2.getEventTemplate UPDATE template) before after)
      as (e' & He' & Hr & _).
    rewrite Hfill in He'. by injection He' as ->.
Qed.

Lemma update_block_on_one_row :
  ∃ e, getManyEvents 0 UPDATE [updateRow status_before status_after]
         [getEventObject UPDATE "shop.orders" 1000]
       = ([e], Ok [0]) ∧
       reflects_update e status_before status_after.
Proof.
  destruct update_block_reflects_images as (_ & H & _).
  apply (H [] (getEventObject UPDATE "shop.orders" 1000)
           status_before status_after).
  constructor.
Qed.

(** On a batch of update rows every payload shows the images and the
    changed columns of the row that ends the batch. *)
Lemma getManyEvents_update_last rows ev0 before after :
  Forall is_update_row rows →
  ∃ e, getManyEvents 0 UPDATE (rows ++ [updateRow before after]) [ev0]
       = ([e], Ok (replicate (S (length rows)) 0)) ∧
       contents [e] (replicate (S (length rows)) 0)
       = replicate (S (length rows)) e ∧
       reflects_update e before after.
Proof.
  intros Hrows.
  destruct update_block_reflects_images as (_ & H & _).
  destruct (H rows ev0 before after Hrows) as (e & Hrun & Hr).
  exists e. split; [done|]. split; [apply contents_replicate|done].
Qed.

(** C4: on the update batch [two_updates] (status A to B, then quantity 1
    to 2), [getManyEvents] (revisions 1 and 3) returns two payloads that
    refer to the one event object, which holds what the UPDATE block
    wrote for the second row: the event at index 0 has the images of the
    second row and [qty] for its changed columns, not the images of
    the first row and [status].  The block itself builds the event of
    the first row right at the time it runs, and [Rev2.getManyEvents]
    returns for each row an event with the images and the changed columns
    of that row. *)
Theorem update_event_shows_last_row :
  let e0 := getEventObject UPDATE "shop.orders" 1000 in
  ∃ e,
    getManyEvents 0 UPDATE two_updates [e0] = ([e], Ok [0; 0]) ∧
    contents [e] [0; 0] = [e; e] ∧
    old (data e) = JObj status_after ∧
    new (data e) = JObj qty_after ∧
    changedColumns e = ["qty"] ∧
    ¬ reflects_update e status_before status_after ∧
    (∃ e1, fillEvent UPDATE e0 (updateRow status_before status_after) = Ok e1 ∧
           old (data e1) = JObj status_before ∧
           new (data e1) = JObj status_after ∧
           changedColumns e1 = ["status"]) ∧
    ∃ eA eB,
      Rev2.getManyEvents UPDATE two_updates orders = Ok [eA; eB] ∧
      old (data eA) = JObj status_before ∧ new (data eA) = JObj status_after ∧
      changedColumns eA = ["status"] ∧
      old (data eB) = JObj status_after ∧ new (data eB) = JObj qty_after ∧
      changedColumns eB = ["qty"].
Proof.
  cbv zeta. eexists. split; [vm_compute; reflexivity|].
  split; [reflexivity|]. split; [reflexivity|]. split; [reflexivity|].
  split; [reflexivity|]. split.
  - intros (Hold & _). discriminate Hold.
  - split.
    + eexists. split; [vm_compute; reflexivity|]. repeat split.
    + eexists _, _. split; [vm_compute; reflexivity|]. repeat split.
Qed.

Lemma Rev2_getManyEvents_inv act rows template events :
  Rev2.getManyEvents act rows template = Ok events →
  Forall2 (λ row e, fillEvent act (Rev2.getEventTemplate act template) row = Ok e)
          rows events.
Proof.
  unfold Rev2.getManyEvents.
  assert (∀ payloads out,
    foldM (λ payloads row,
             event ← fillEvent act (Rev2.getEventTemplate act template) row;
             mret (payloads ++ [event])%list) payloads rows = Ok out →
    ∃ events, out = (payloads ++ events)%list ∧
      Forall2 (λ row e, fillEvent act (Rev2.getEventTemplate act template) row = Ok e)
              rows events) as Hgen.
  { induction rows as [|row rows IH]; intros payloads out; cbn [foldM].
    - intros [= <-]. exists []. split; [by rewrite app_nil_r|constructor].
    - destruct (fillEvent act (Rev2.getEventTemplate act template) row) as [e|] eqn:He;
        cbn [mbind result_bind mret result_ret]; [|done].
      intros Hout. destruct (IH _ _ Hout) as (events' & -> & Hall).
      exists (e :: events'). split; [by rewrite <- app_assoc|]. by constructor. }
  intros H. destruct (Hgen [] events H) as (events' & -> & Hall). done.
Qed.

(** One event per row, and every event of a batch carries the action,
    the timestamp and the two parts of the path of the batch. *)
Lemma Rev2_getManyEvents_shares act rows template events :
  Rev2.getManyEvents act rows template = Ok events →
  length events = length rows ∧
  Forall (λ e, action e = act ∧
               timestamp e = Rev2.template_timestamp template ∧
               database e = split (Rev2.path template) !! 0 ∧
               table e = split (Rev2.path template) !! 1) events.
Proof.
  intros H. apply Rev2_getManyEvents_inv in H. split.
  - symmetry. by eapply Forall2_length.
  - induction H as [|row e rows events He _ IH]; constructor; [|done].
    by apply fillEvent_frame in He.
Qed.

Lemma Rev2_getManyEvents_total act rows template :
  well_formed_rows act rows →
  ∃ events, Rev2.getManyEvents act rows template = Ok events ∧
            length events = length rows.
Proof.
  intros Hwf.
  assert (∃ events, Forall2 (λ row e,
            fillEvent act (Rev2.getEventTemplate act template) row = Ok e)
            rows events) as [events Hev].
  { induction rows as [|row rows IH]; [exists []; constructor|].
    destruct IH as [events IH].
    { intros Hact. specialize (Hwf Hact). by inversion Hwf. }
    destruct (fillEvent_total act (Rev2.getEventTemplate act template) row) as [e He].
    { intros Hact. specialize (Hwf Hact). by inversion Hwf. }
    exists (e :: events). by constructor. }
  exists events. split.
  - unfold Rev2.getManyEvents. by rewrite (Rev2_getManyEvents_push _ rows events).
  - symmetry. by eapply Forall2_length.
Qed.

(** Revision 2 on an insert or delete batch: the event at the index of a
    row carries that row and nothing else, under the action, timestamp and
    path of the batch. *)
Lemma Rev2_getManyEvents_per_row act rows template i row :
  act = INSERT ∨ act = DELETE → rows !! i = Some row →
  ∃ events e,
    Rev2.getManyEvents act rows template = Ok events ∧
    length events = length rows ∧
    events !! i = Some e ∧
    data e = (if bool_decide (act = INSERT) then mkData JNull row
              else mkData row JNull) ∧
    changedColumns e = [] ∧
    action e = act ∧
    timestamp e = Rev2.template_timestamp template ∧
    database e = split (Rev2.path template) !! 0 ∧
    table e = split (Rev2.path template) !! 1.
Proof.
  intros [-> | ->] Hi.
  - exists (map (λ row, set_data_new row (Rev2.getEventTemplate INSERT template)) rows),
           (set_data_new row (Rev2.getEventTemplate INSERT template)).
    rewrite Rev2_getManyEvents_insert, length_map.
    split; [done|]. split; [done|]. split; [|done].
    change (map ?f rows) with (f <$> rows). by rewrite list_lookup_fmap, Hi.
  - exists (map (λ row, set_data_old row (Rev2.getEventTemplate DELETE template)) rows),
           (set_data_old row (Rev2.getEventTemplate DELETE template)).
    rewrite Rev2_getManyEvents_delete, length_map.
    split; [done|]. split; [done|]. split; [|done].
    change (map ?f rows) with (f <$> rows). by rewrite list_lookup_fmap, Hi.
Qed.

(** ** The shared event object (revisions 1 and 3) *)

Lemma foldM_fillEvent_insert rows row ev0 :
  foldM (fillEvent INSERT) ev0 (rows ++ [row]) = Ok (set_data_new row ev0).
Proof.
  revert ev0. induction rows as [|r rows IH]; intros ev0; [done|].
  simpl. rewrite IH. by destruct ev0 as [? ? ? ? ? []].
Qed.

(** On an insert batch every payload shows the last row. *)
Lemma getManyEvents_insert_last rows row ev0 :
  ∃ h payloads,
    getManyEvents 0 INSERT (rows ++ [row]) [ev0] = (h, Ok payloads) ∧
    contents h payloads = replicate (S (length rows)) (set_data_new row ev0).
Proof.
  exists [set_data_new row ev0], (replicate (length (rows ++ [row])) 0).
  split.
  - unfold getManyEvents.
    by rewrite (getManyEvents_run INSERT _ ev0 (set_data_new row ev0) []
                  (foldM_fillEvent_insert rows row ev0)).
  - rewrite contents_replicate. by rewrite length_app, Nat.add_comm.
Qed.

(** C5: on the insert batch [row1; row2], [getManyEvents] (revisions 1
    and 3) returns two payloads that refer to the one event object, which
    holds [row2]: the event at index 0 does not reflect [row1].
    [Rev2.getManyEvents] returns an event of its own for each row (see
    also [Rev2_getManyEvents_insert], [Rev2_getManyEvents_delete],
    [Rev2_getManyEvents_shares]). *)
Theorem shared_event_shows_last_row :
  let e0 := getEventObject INSERT "shop.orders" 1000 in
  getManyEvents 0 INSERT [row1; row2] [e0]
  = ([set_data_new row2 e0], Ok [0; 0]) ∧
  (λ e, new (data e)) <$> contents [set_data_new row2 e0] [0; 0]
  = [row2; row2] ∧
  (λ e, new (data e)) <$> contents [set_data_new row2 e0] [0; 0]
  ≠ [row1; row2] ∧
  Rev2.getManyEvents INSERT [row1; row2] orders
  = Ok [set_data_new row1 e0; set_data_new row2 e0].
Proof. vm_compute. repeat split. discriminate. Qed.

(** ** Dispatch *)

Lemma invoke_function w trg id evt log :
  handler <$> heap w !! trg = Some (Function id) →
  invoke w trg evt log = ((log ++ [(id, evt)])%list, Ok ()).
Proof. intros Hh. unfold invoke. by rewrite Hh. Qed.

Lemma forEach_invoke w trg id events log :
  handler <$> heap w !! trg = Some (Function id) →
  forEach events (λ evt, invoke w trg evt) log
  = ((log ++ map (pair id) events)%list, Ok ()).
Proof.
  intros Hh. revert log. induction events as [|evt events IH]; intros log; simpl.
  - by rewrite app_nil_r.
  - unfold mbind, M_bind. rewrite (invoke_function w trg id evt log Hh).
    rewrite IH. by rewrite <- app_assoc.
Qed.

Lemma dispatch_delivers w found ids events :
  handlers_of w found ids → delivers (dispatch w found events) ids events.
Proof.
  intros H log. revert log. unfold dispatch, deliveries.
  induction H as [|trg id found ids Hh _ IH]; intros log; simpl.
  - by rewrite app_nil_r.
  - unfold mbind, M_bind. rewrite (forEach_invoke w trg id events log Hh).
    rewrite IH. by rewrite <- app_assoc.
Qed.

Lemma deliveries_length ids events :
  length (deliveries ids events) = length ids * length events.
Proof.
  unfold deliveries. induction ids as [|id ids IH]; [done|].
  cbn [flat_map]. rewrite length_app, length_map. simpl. f_equal. apply IH.
Qed.

(** Event [j] for subscriber [i] is invocation number [i * M + j]. *)
Lemma deliveries_lookup ids events i j id evt :
  ids !! i = Some id → events !! j = Some evt →
  deliveries ids events !! (i * length events + j) = Some (id, evt).
Proof.
  unfold deliveries. revert i. induction ids as [|id' ids IH]; intros i Hi Hj;
    [done|].
  cbn [flat_map]. destruct i as [|i]; simpl in Hi |- *.
  - injection Hi as ->. rewrite lookup_app_l.
    + by rewrite list_lookup_fmap, Hj.
    + rewrite length_map. by eapply lookup_lt_Some.
  - rewrite lookup_app_r by (rewrite length_map; lia).
    rewrite length_map.
    replace (length events + i * length events + j - length events)
      with (i * length events + j) by lia.
    by apply IH.
Qed.

(** C8: when [getTriggers] finds no trigger, [eventHandler] returns with
    no invocation made and the rows not looked at; when it finds N
    triggers, the handlers of these are called on the M events of the
    batch, trigger by trigger in the order found and, for each, event by
    event in the order of the rows: N * M invocations, the one for trigger
    [i] and row [j] at position [i * M + j].  Stated for [eventHandler]
    (revisions 1 and 3), where the events are what the payloads refer to,
    and for [Rev2.eventHandler]. *)
Theorem eventHandler_delivers w blEvent (act : STATEMENTS) entry found :
  tableMap blEvent !! tableId blEvent = Some entry →
  getTriggers w (pathOf (parentSchema entry) (tableName entry)) act = Ok found →
  (found = [] →
   ∀ log, eventHandler w blEvent act log = (log, Ok ()) ∧
          Rev2.eventHandler w blEvent act log = (log, Ok ())) ∧
  (∀ ids, found ≠ [] → handlers_of w found ids →
          well_formed_rows act (rows blEvent) →
     (∃ h payloads,
        getManyEvents 0 act (rows blEvent)
          [getEventObject act (pathOf (parentSchema entry) (tableName entry))
                          (binlog_timestamp blEvent)] = (h, Ok payloads) ∧
        length (contents h payloads) = length (rows blEvent) ∧
        delivers (eventHandler w blEvent act) ids (contents h payloads)) ∧
     (∃ events,
        Rev2.getManyEvents act (rows blEvent)
          (Rev2.mkTemplate (pathOf (parentSchema entry) (tableName entry))
                           (binlog_timestamp blEvent)) = Ok events ∧
        length events = length (rows blEvent) ∧
        delivers (Rev2.eventHandler w blEvent act) ids events) ∧
     ∀ events, length events = length (rows blEvent) →
       length (deliveries ids events) = length found * length (rows blEvent) ∧
       ∀ i j id evt, ids !! i = Some id → events !! j = Some evt →
         deliveries ids events !! (i * length (rows blEvent) + j) = Some (id, evt)).
Proof.
  intros Hentry Hfound. unfold pathOf in *. split.
  - intros -> log.
    unfold Rev2.eventHandler, eventHandler, mbind, M_bind, lift, table_entry.
    rewrite Hentry. simpl. by rewrite Hfound.
  - intros ids Hne Hids Hwf.
    assert (length found = length ids) as Hn by (by eapply Forall2_length).
    split; [|split].
    + destruct (foldM_fillEvent_total act (rows blEvent)
                  (getEventObject act
                     (parentSchema entry +:+ "." +:+ tableName entry)
                     (binlog_timestamp blEvent)) Hwf) as [ev Hsh].
      exists [ev], (replicate (length (rows blEvent)) 0).
      assert (getManyEvents 0 act (rows blEvent)
                [getEventObject act
                   (parentSchema entry +:+ "." +:+ tableName entry)
                   (binlog_timestamp blEvent)]
              = ([ev], Ok (replicate (length (rows blEvent)) 0))) as Hrun.
      { unfold getManyEvents.
        by rewrite (getManyEvents_run act (rows blEvent) _ ev [] Hsh). }
      split; [done|].
      split; [by rewrite contents_replicate, length_replicate|].
      intros log.
      unfold eventHandler, mbind, M_bind, lift, table_entry.
      rewrite Hentry. simpl. rewrite Hfound.
      destruct found as [|trg found]; [done|]. simpl. rewrite Hrun.
      by apply dispatch_delivers.
    + destruct (Rev2_getManyEvents_total act (rows blEvent)
                  (Rev2.mkTemplate (parentSchema entry +:+ "." +:+ tableName entry)
                                   (binlog_timestamp blEvent)) Hwf)
        as (events & Hev & Hlen).
      exists events. split; [done|]. split; [done|].
      intros log.
      unfold Rev2.eventHandler, mbind, M_bind, lift, table_entry.
      rewrite Hentry. simpl. rewrite Hfound.
      destruct found as [|trg found]; [done|]. simpl. rewrite Hev.
      by apply dispatch_delivers.
    + intros events Hlen. split.
      * by rewrite deliveries_length, Hlen, Hn.
      * intros i j id evt Hi Hj. rewrite <- Hlen. by apply deliveries_lookup.
Qed.

Lemma eventHandler_delivers_witness :
  (∃ h payloads,
     getManyEvents 0 INSERT [row1; row2]
       [getEventObject INSERT "shop.orders" 1000] = (h, Ok payloads) ∧
     length (contents h payloads) = 2 ∧
     delivers (eventHandler four_subscribers two_inserts INSERT) [0; 2]
              (contents h payloads)) ∧
  (∃ events,
     Rev2.getManyEvents INSERT [row1; row2] orders = Ok events ∧
     length events = 2 ∧
     delivers (Rev2.eventHandler four_subscribers two_inserts INSERT) [0; 2] events).
Proof.
  destruct (eventHandler_delivers four_subscribers two_inserts INSERT
              (mkEntry "shop" "orders") [0; 2]) as [_ H].
  - reflexivity.
  - vm_compute. reflexivity.
  - destruct (H [0; 2]) as (H1 & H2 & _).
    + discriminate.
    + repeat constructor.
    + intros Hact. discriminate Hact.
    + split; assumption.
Defined.

(** The example of the specification, on both builders: the insert batch
    of two rows reaches the handlers of [*] and [*.orders], two calls
    each, in this order; with the shared event object each call shows the
    second row. *)
Lemma two_inserts_invocations :
  (eventHandler four_subscribers two_inserts INSERT []).2 = Ok () ∧
  (λ c, (c.1, new (data c.2))) <$>
    (eventHandler four_subscribers two_inserts INSERT []).1
  = [(0, row2); (0, row2); (2, row2); (2, row2)] ∧
  (Rev2.eventHandler four_subscribers two_inserts INSERT []).2 = Ok () ∧
  (λ c, (c.1, new (data c.2))) <$>
    (Rev2.eventHandler four_subscribers two_inserts INSERT []).1
  = [(0, row1); (0, row2); (2, row1); (2, row2)].
Proof. vm_compute. repeat split. Qed.

(** No trigger on the table: the batch is dropped before its rows are
    read, also when the builder would throw on them. *)
Lemma eventHandler_skips_the_builder :
  getTriggers (fresh []) (pathOf "shop" "orders") UPDATE = Ok [] ∧
  (getManyEvents 0 UPDATE (rows null_update)
     [getEventObject UPDATE "shop.orders" 1000]).2 = Throw TypeError ∧
  Rev2.getManyEvents UPDATE (rows null_update) orders = Throw TypeError ∧
  eventHandler (fresh []) null_update UPDATE [] = ([], Ok ()) ∧
  Rev2.eventHandler (fresh []) null_update UPDATE [] = ([], Ok ()).
Proof. vm_compute. repeat split. Qed.

(** * Further properties *)

(** ** checkExpression: what it rejects, and what it does to its own
       results *)

Lemma length_split s : length (split s) = S (count_dots s).
Proof.
  induction s as [|c s IH]; simpl; [done|].
  destruct (is_dot c); simpl; [by rewrite IH|].
  pose proof (split_not_nil s) as Hn.
  destruct (split s) as [|p ps]; [done|]. simpl in *. done.
Qed.

Lemma checkExpression_throws_iff s :
  (∃ err, checkExpression (Some s) = Throw err) ↔
  s ≠ "" ∧ s ≠ "*" ∧ count_dots s ≠ 1.
Proof.
  unfold checkExpression. split.
  - intros [err H].
    destruct (String.eqb s "") eqn:E1; [done|].
    destruct (String.eqb s "*") eqn:E2; [done|].
    destruct (String.eqb s "*.*") eqn:E3; [done|]. simpl in H.
    apply String.eqb_neq in E1, E2. split; [done|]. split; [done|].
    intros Hc. pose proof (length_split s) as Hlen. rewrite Hc in Hlen.
    destruct (split s) as [|p0 [|p1 [|p2 ps]]]; simpl in Hlen; try lia. done.
  - intros (N1 & N2 & Nc).
    apply String.eqb_neq in N1, N2. rewrite N1, N2.
    destruct (String.eqb s "*.*") eqn:E3.
    { apply String.eqb_eq in E3. subst s. by destruct Nc. }
    simpl. pose proof (length_split s) as Hlen.
    destruct (split s) as [|p0 [|p1 [|p2 ps]]]; try by eexists.
    simpl in Hlen. destruct Nc. lia.
Qed.

(** X1: [checkExpression] throws exactly on the strings that are not
    empty, are not [*] and do not hold exactly one dot; the error is
    always the InvalidExpression error, and a missing expression is taken
    for [*]. *)
Theorem checkExpression_rejects s :
  ((∃ err, checkExpression (Some s) = Throw err) ↔
   s ≠ "" ∧ s ≠ "*" ∧ count_dots s ≠ 1) ∧
  (∀ err, checkExpression (Some s) = Throw err → err = InvalidExpression) ∧
  checkExpression None = Ok "*".
Proof.
  split; [apply checkExpression_throws_iff|]. split; [|done].
  intros err. unfold checkExpression.
  destruct (String.eqb s "" || String.eqb s "*" || String.eqb s "*.*"); [done|].
  destruct (split s) as [|p0 [|p1 [|p2 ps]]]; by intros [= <-].
Qed.

Lemma checkExpression_fixes_result s r :
  checkExpression s = Ok r →
  s ≠ Some "." → s ≠ Some "*." → s ≠ Some ".*" →
  checkExpression (Some r) = Ok r.
Proof.
  destruct s as [s|]; [|by intros [= <-]].
  intros H N1 N2 N3.
  destruct (checkExpression_inv _ _ H)
    as [[-> _]|(p0 & p1 & -> & H0 & H1 & Hne & ->)]; [done|].
  destruct (String.eqb p0 "") eqn:E0.
  { apply String.eqb_eq in E0. subst p0.
    change ("*." +:+ p1) with ("*" +:+ "." +:+ p1).
    rewrite (checkExpression_two "*" p1); [|done|done|].
    - destruct (String.eqb p1 "") eqn:E1; [|done].
      apply String.eqb_eq in E1. subst p1. by destruct N1.
    - intros E.
      assert (split ("*" +:+ "." +:+ p1) = ["*"; "*"]) as Hs by (by rewrite E).
      rewrite split_two in Hs by done. injection Hs as ->. by destruct N3. }
  destruct (String.eqb p1 "") eqn:E1.
  { apply String.eqb_eq in E1. subst p1.
    change (p0 +:+ ".*") with (p0 +:+ "." +:+ "*").
    rewrite (checkExpression_two p0 "*"); [|done|done|].
    - by rewrite E0.
    - intros E.
      assert (split (p0 +:+ "." +:+ "*") = ["*"; "*"]) as Hs by (by rewrite E).
      rewrite split_two in Hs by done. injection Hs as ->. by destruct N2. }
  rewrite checkExpression_two by done. by rewrite E0, E1.
Qed.

(** X2: normalizing twice is normalizing once: what [checkExpression]
    returns, it returns unchanged when given it again, for every input
    but the three ([.], [*.], [.*]) whose result is not canonical. *)
Theorem checkExpression_idempotent s r :
  checkExpression s = Ok r →
  s ≠ Some "." → s ≠ Some "*." → s ≠ Some ".*" →
  checkExpression (Some r) = Ok r ∧ canonical r.
Proof.
  intros H N1 N2 N3. split.
  - by eapply checkExpression_fixes_result.
  - by eapply checkExpression_canonical.
Qed.

Lemma checkExpression_idempotent_witness :
  checkExpression (Some "*.orders") = Ok "*.orders" ∧ canonical "*.orders".
Proof.
  apply (checkExpression_idempotent (Some ".orders") "*.orders");
    [reflexivity|discriminate|discriminate|discriminate].
Defined.

(** X3: revision 3 of [checkExpression] rejects the same strings as
    revisions 1 and 2, and on the others returns [*] or the string it was
    given: it agrees with revisions 1 and 2 wherever these return the
    expression unchanged. *)
Theorem Rev3_checkExpression_agrees s :
  ((∃ err, Rev3.checkExpression s = Throw err) ↔
   (∃ err, checkExpression s = Throw err)) ∧
  (∀ r, Rev3.checkExpression s = Ok r → r = "*" ∨ s = Some r) ∧
  (∀ r, checkExpression s = Ok r → s = Some r ∨ r = "*" →
        Rev3.checkExpression s = Ok r).
Proof.
  destruct s as [s|].
  2:{ split; [split; intros [? ?]; done|]. split; [intros r [= <-]; by left|done]. }
  unfold Rev3.checkExpression, checkExpression.
  destruct (String.eqb s "" || String.eqb s "*" || String.eqb s "*.*") eqn:E.
  { split; [split; intros [? ?]; done|]. split; [intros r [= <-]; by left|done]. }
  destruct (split s) as [|p0 [|p1 [|p2 ps]]] eqn:Hs; simpl.
  - by destruct (split_not_nil s).
  - split; [done|]. split; done.
  - split; [split; intros [? ?]; done|]. split; [intros r [= <-]; by right|].
    intros r [= <-] [Hsame|Hstar].
    + by injection Hsame as <-.
    + destruct (split_two_inv _ _ _ Hs) as (-> & H0 & H1).
      destruct (String.eqb p0 "") eqn:E0.
      * exfalso. rewrite append_String in Hstar. injection Hstar as Hstar.
        rewrite append_String in Hstar. discriminate Hstar.
      * destruct (String.eqb p1 "") eqn:E1.
        -- exfalso. clear E. apply String.eqb_neq in E0.
           destruct p0 as [|c p0]; [done|]. rewrite append_String in Hstar.
           injection Hstar as _ Hstar. destruct p0; discriminate Hstar.
        -- exfalso. clear E. apply String.eqb_neq in E0.
           destruct p0 as [|c p0]; [done|]. rewrite append_String in Hstar.
           injection Hstar as _ Hstar. destruct p0; discriminate Hstar.
  - split; [done|]. split; done.
Qed.

(** ** add, stop, start: what they leave alone *)

Lemma add_without_function w l o rnd :
  heap w !! l = Some o → is_function (handler o) = false →
  add (Some l) rnd w = (w, Throw HandlerMustBeFunction).
Proof. intros Hl Hf. unfold add, mbind, M_bind, deref. by rewrite Hl, Hf. Qed.

Lemma add_returns_tag_or_keeps_maps w trg rnd :
  (∃ t, (add trg rnd w).2 = Ok (Tag t)) ∨
  (triggers (add trg rnd w).1 = triggers w ∧ tags (add trg rnd w).1 = tags w).
Proof.
  destruct trg as [l|]; [|by right].
  destruct (heap w !! l) as [o|] eqn:Hl.
  2:{ right. unfold add, mbind, M_bind, deref. by rewrite Hl. }
  destruct (is_function (handler o)) eqn:Hf.
  2:{ right. by rewrite (add_without_function w l o rnd Hl Hf). }
  rewrite (add_run w l o rnd Hl Hf). cbv zeta.
  destruct (checkExpression (expression o)) as [e|err]; [|by right].
  destruct (triggers_has (or_else (tag o) rnd) w || tags_has e w);
    [by right|left; by eexists].
Qed.

(** X4: [add] changes the two maps only when it returns a tag: when it
    returns [undefined] or [null], or throws, both maps are what they
    were; and a trigger whose handler is not a function is refused before
    anything is written, the object of the caller included. *)
Theorem add_changes_maps_only_with_tag w trg rnd :
  (∀ t, (add trg rnd w).2 ≠ Ok (Tag t)) →
  triggers (add trg rnd w).1 = triggers w ∧
  tags (add trg rnd w).1 = tags w ∧
  match trg with
  | None => add trg rnd w = (w, Ok Undefined)
  | Some l =>
      ∀ o, heap w !! l = Some o → is_function (handler o) = false →
           add trg rnd w = (w, Throw HandlerMustBeFunction)
  end.
Proof.
  intros Hno. destruct (add_returns_tag_or_keeps_maps w trg rnd) as [[t Ht]|[H1 H2]].
  { by destruct (Hno t). }
  split; [done|]. split; [done|]. destruct trg as [l|]; [|done].
  intros o Hl Hf. exact (add_without_function w l o rnd Hl Hf).
Qed.

Lemma add_changes_maps_only_with_tag_witness :
  triggers (add (Some 1) "0rnd" (after_add not_a_handler)).1
  = triggers (after_add not_a_handler) ∧
  tags (add (Some 1) "0rnd" (after_add not_a_handler)).1
  = tags (after_add not_a_handler) ∧
  ∀ o, heap (after_add not_a_handler) !! 1 = Some o →
       is_function (handler o) = false →
       add (Some 1) "0rnd" (after_add not_a_handler)
       = (after_add not_a_handler, Throw HandlerMustBeFunction).
Proof.
  apply (add_changes_maps_only_with_tag (after_add not_a_handler) (Some 1) "0rnd").
  intros t. vm_compute. discriminate.
Defined.

Lemma add_keeps_maps w trg rnd :
  (∀ t l, triggers w !! t = Some l → triggers (add trg rnd w).1 !! t = Some l) ∧
  (∀ e t, tags w !! e = Some t → tags (add trg rnd w).1 !! e = Some t) ∧
  length (heap (add trg rnd w).1) = length (heap w).
Proof.
  destruct trg as [l|]; [|done].
  destruct (heap w !! l) as [o|] eqn:Hl.
  2:{ unfold add, mbind, M_bind, deref. by rewrite Hl. }
  destruct (is_function (handler o)) eqn:Hf.
  2:{ by rewrite (add_without_function w l o rnd Hl Hf). }
  rewrite (add_run w l o rnd Hl Hf). cbv zeta.
  destruct (checkExpression (expression o)) as [e|err]; simpl.
  2:{ by rewrite length_insert. }
  destruct (triggers_has (or_else (tag o) rnd) w || tags_has e w) eqn:Htaken;
    simpl; rewrite length_insert; [done|].
  apply orb_false_iff in Htaken as [Ht He].
  unfold triggers_has, tags_has in Ht, He.
  apply bool_decide_eq_false in Ht, He.
  split; [|split; [|done]].
  - intros t l' Hl'. rewrite lookup_insert_ne; [done|].
    intros <-. apply Ht. by eexists.
  - intros e' t Ht'. rewrite lookup_insert_ne; [done|].
    intros <-. apply He. by eexists.
Qed.

(** X5: whatever it is given and however it ends, [add] takes no entry
    away and binds no tag or expression anew: every tag keeps its trigger
    and every expression its tag. *)
Theorem add_never_rebinds w trg rnd t l e t' :
  triggers w !! t = Some l → tags w !! e = Some t' →
  triggers (add trg rnd w).1 !! t = Some l ∧
  tags (add trg rnd w).1 !! e = Some t'.
Proof.
  intros Ht He. destruct (add_keeps_maps w trg rnd) as (H1 & H2 & _). auto.
Qed.

Lemma add_never_rebinds_witness :
  triggers (add (Some 1) "0rnd" (after_add same_tag_new_expression)).1 !! "t"
  = Some 0 ∧
  tags (add (Some 1) "0rnd" (after_add same_tag_new_expression)).1 !! "a.b"
  = Some "t".
Proof.
  apply (add_never_rebinds (after_add same_tag_new_expression) (Some 1) "0rnd"
           "t" 0 "a.b" "t"); reflexivity.
Defined.

Lemma stop_known w t l :
  triggers w !! t = Some l →
  (stop t w).1 = mkMysqlEvent (alter (set_enable false) l (heap w)) (triggers w) (tags w).
Proof. intros Ht. unfold stop, mbind, M_bind, gets. simpl. by rewrite Ht. Qed.

Lemma start_known w t l :
  triggers w !! t = Some l →
  (start t w).1 = mkMysqlEvent (alter (set_enable true) l (heap w)) (triggers w) (tags w).
Proof. intros Ht. unfold start, mbind, M_bind, gets. simpl. by rewrite Ht. Qed.

Lemma stop_unknown w t : triggers w !! t = None → (stop t w).1 = w.
Proof. intros Ht. unfold stop, mbind, M_bind, gets. simpl. by rewrite Ht. Qed.

Lemma start_unknown w t : triggers w !! t = None → (start t w).1 = w.
Proof. intros Ht. unfold start, mbind, M_bind, gets. simpl. by rewrite Ht. Qed.

(** X6: [stop] and [start] never throw, and calling one of them twice is
    calling it once. *)
Theorem stop_start_idempotent w t :
  (stop t (stop t w).1).1 = (stop t w).1 ∧ (stop t w).2 = Ok () ∧
  (start t (start t w).1).1 = (start t w).1 ∧ (start t w).2 = Ok ().
Proof.
  destruct (triggers w !! t) as [l|] eqn:Ht.
  - pose proof (stop_known w t l Ht) as Hs.
    pose proof (start_known w t l Ht) as Hr.
    assert (triggers (stop t w).1 !! t = Some l) as Ht1 by (by rewrite Hs).
    assert (triggers (start t w).1 !! t = Some l) as Ht2 by (by rewrite Hr).
    rewrite (stop_known _ t l Ht1), (start_known _ t l Ht2), Hs, Hr. simpl.
    repeat split.
    + f_equal. rewrite list_alter_alter_eq. by apply list_alter_ext.
    + unfold stop, mbind, M_bind, gets. simpl. by rewrite Ht.
    + f_equal. rewrite list_alter_alter_eq. by apply list_alter_ext.
    + unfold start, mbind, M_bind, gets. simpl. by rewrite Ht.
  - rewrite !(stop_unknown w t Ht), !(start_unknown w t Ht).
    repeat split; unfold stop, start, mbind, M_bind, gets; simpl; by rewrite Ht.
Qed.

(** X7: [stop] on a tag that is not registered changes nothing; on a
    registered tag it writes [false] to the [enable] field of that
    trigger and nothing else: the maps, the other objects and the other
    fields stay. *)
Theorem stop_writes_enable_only w t :
  triggers (stop t w).1 = triggers w ∧ tags (stop t w).1 = tags w ∧
  match triggers w !! t with
  | None => (stop t w).1 = w
  | Some l =>
      (∀ l', l' ≠ l → heap (stop t w).1 !! l' = heap w !! l') ∧
      heap (stop t w).1 !! l = set_enable false <$> heap w !! l
  end.
Proof.
  destruct (stop_run w t) as (Ht & Hg & _). split; [done|]. split; [done|].
  destruct (triggers w !! t) as [l|] eqn:Hl.
  - rewrite (stop_known w t l Hl). simpl. split.
    + intros l' Hne. by rewrite list_lookup_alter_ne.
    + by rewrite list_lookup_alter_eq.
  - by apply stop_unknown.
Qed.

(** X8: [start] after [stop] gives back the state as it was for a
    trigger that was enabled: the pair is the identity there. *)
Theorem start_undoes_stop w t l o :
  triggers w !! t = Some l → heap w !! l = Some o → enable o = Some true →
  (start t (stop t w).1).1 = w.
Proof.
  intros Ht Hl Hen. pose proof (stop_known w t l Ht) as Hs.
  assert (triggers (stop t w).1 !! t = Some l) as Ht1 by (by rewrite Hs).
  rewrite (start_known _ t l Ht1), Hs. simpl. destruct w as [h tr tg]. simpl in *.
  f_equal. rewrite list_alter_alter_eq. apply list_eq. intros i.
  destruct (decide (i = l)) as [->|Hne].
  - rewrite list_lookup_alter_eq, Hl. simpl. f_equal.
    destruct o as [hd tg' ex st en]. simpl in *. by subst en.
  - by rewrite list_lookup_alter_ne.
Qed.

Lemma start_undoes_stop_witness :
  (start "t" (stop "t" (after_add other_subscriber)).1).1
  = after_add other_subscriber.
Proof.
  apply (start_undoes_stop (after_add other_subscriber) "t" 0
           (mkTrigger (Function 0) (Some "t") (Some "a.b") (Some ALL) (Some true)));
    reflexivity.
Defined.

(** ** add, stop and start against getTriggers *)

Lemma match_spec_owner w db tbl act exp l trg :
  exp ∈ candidates db tbl → owner w exp = Some (l, trg) →
  accepts act trg = true → l ∈ match_spec w db tbl act.
Proof.
  intros Hexp Hown Hacc. unfold match_spec.
  apply list_elem_of_In, in_concat. exists (match_candidate w act exp). split.
  - apply in_map. by apply list_elem_of_In.
  - unfold match_candidate. rewrite Hown, Hacc. by left.
Qed.

(** X9: on a state in which every tag entry refers to an object, every
    expression entry names a registered tag and none names the empty tag
    (as in every state reached from a fresh instance without [remove],
    generated tags being non-empty), a trigger that [add] has just
    registered is found: with a function for handler, a tag and
    a normalized expression that are free, and a generated tag that is
    not empty, [add] returns the tag, and for a schema and a table without
    a dot for which the normalized expression is one of the four
    candidates, and an action its statement takes, [getTriggers] returns
    the trigger.  After a [remove] this can fail: see
    [getTriggers_after_remove]. *)
Theorem added_trigger_is_found w l o rnd e db tbl (act : STATEMENTS) :
  consistent w → tags_nonempty w → rnd ≠ "" →
  heap w !! l = Some o → is_function (handler o) = true →
  checkExpression (expression o) = Ok e →
  triggers w !! or_else (tag o) rnd = None → tags w !! e = None →
  e ∈ candidates db tbl → has_dot db = false → has_dot tbl = false →
  statement_or_ALL (statement o) = ALL ∨ statement_or_ALL (statement o) = act →
  (add (Some l) rnd w).2 = Ok (Tag (or_else (tag o) rnd)) ∧
  ∃ found, getTriggers (add (Some l) rnd w).1 (pathOf db tbl) act = Ok found ∧
           l ∈ found.
Proof.
  intros Hc Hne Hrnd Hl Hf He Ht Hexp Hcand Hd Htb Hst.
  pose proof (add_consistent w (Some l) rnd Hc) as Hc'.
  pose proof (add_tags_nonempty w (Some l) rnd Hrnd Hne) as Hne'.
  pose proof (getTriggers_refines _ db tbl act (consistent_resolves _ Hc') Hne' Hd Htb)
    as Hget.
  revert Hget. rewrite (add_run w l o rnd Hl Hf), He. cbv zeta.
  assert (triggers_has (or_else (tag o) rnd) w || tags_has e w = false) as ->.
  { unfold triggers_has, tags_has. rewrite Ht, Hexp. apply orb_false_iff.
    split; apply bool_decide_eq_false_2; by intros [? ?]. }
  simpl. intros Hget. split; [done|]. eexists. split; [exact Hget|].
  apply (match_spec_owner _ db tbl act e l (set_expression e (defaulted o rnd)));
    [done| |].
  - unfold owner. simpl. rewrite lookup_insert_eq. simpl.
    rewrite lookup_insert_eq. simpl.
    by rewrite (insert_lookup_same l (heap w) o _ Hl).
  - unfold accepts. apply andb_true_iff. split.
    + by apply bool_decide_eq_true_2.
    + apply orb_true_iff. simpl.
      destruct Hst as [-> | ->]; [left|right]; by apply bool_decide_eq_true_2.
Qed.

Lemma added_trigger_is_found_witness :
  (add (Some 1) "0rnd" (after_add other_subscriber)).2 = Ok (Tag "0rnd") ∧
  ∃ found,
    getTriggers (add (Some 1) "0rnd" (after_add other_subscriber)).1
                (pathOf "shop" "orders") UPDATE = Ok found ∧
    1 ∈ found.
Proof.
  apply (added_trigger_is_found (after_add other_subscriber) 1 other_subscriber
           "0rnd" "shop.*" "shop" "orders" UPDATE).
  - apply run_consistent; [reflexivity|apply fresh_consistent].
  - apply tags_nonemptyb_sound. vm_compute. reflexivity.
  - discriminate.
  - reflexivity.
  - reflexivity.
  - reflexivity.
  - vm_compute. reflexivity.
  - vm_compute. reflexivity.
  - apply list_elem_of_In. simpl. auto.
  - reflexivity.
  - reflexivity.
  - right. reflexivity.
Defined.

Lemma foldM_visit_fires w act exps acc found :
  foldM (visit w act) acc exps = Ok found →
  (∀ l, l ∈ acc → ∃ trg, heap w !! l = Some trg ∧ fires act trg = true) →
  ∀ l, l ∈ found → ∃ trg, heap w !! l = Some trg ∧ fires act trg = true.
Proof.
  revert acc. induction exps as [|exp exps IH]; intros acc; cbn [foldM].
  - by intros [= <-].
  - destruct (visit w act acc exp) as [acc'|err] eqn:Hv;
      cbn [mbind result_bind]; [|done].
    intros Hrest Hacc. apply (IH acc' Hrest).
    unfold visit in Hv. destruct (tags w !! exp) as [t|]; [|by injection Hv as <-].
    destruct (String.eqb t ""); [by injection Hv as <-|].
    destruct (triggers w !! t) as [l0|]; [|done].
    destruct (heap w !! l0) as [trg|] eqn:Hl0; [|done].
    injection Hv as <-. destruct (fires act trg) eqn:Hf; [|done].
    intros l [Hin| ->%list_elem_of_singleton]%elem_of_app; [by apply Hacc|].
    by exists trg.
Qed.

(** What [getTriggers] returns is enabled and takes the action. *)
Lemma getTriggers_fires w path act found l :
  getTriggers w path act = Ok found → l ∈ found →
  ∃ trg, heap w !! l = Some trg ∧ fires act trg = true.
Proof.
  intros H Hin. apply (foldM_visit_fires w act _ [] found H); [|done].
  intros ? []%elem_of_nil.
Qed.

Lemma stop_resolves w t : resolves w → resolves (stop t w).1.
Proof.
  intros Hres e t' Het. destruct (stop_run w t) as (Ht & Hg & Hlen).
  rewrite Hg in Het. destruct (Hres e t' Het) as (l & trg & Hl & Htrg).
  rewrite Ht.
  assert (is_Some (heap (stop t w).1 !! l)) as [trg' Htrg'].
  { apply lookup_lt_is_Some. rewrite Hlen. by eapply lookup_lt_Some. }
  by exists l, trg'.
Qed.

(** X10: a stopped trigger is not delivered to: after [stop], on a state
    whose expression entries resolve, [getTriggers] returns for every path
    and action, and never the trigger of the stopped tag. *)
Theorem stopped_trigger_is_not_found w t l path act :
  resolves w → triggers w !! t = Some l →
  ∃ found, getTriggers (stop t w).1 path act = Ok found ∧ l ∉ found.
Proof.
  intros Hres Ht.
  destruct (getTriggers_total (stop t w).1 path act (stop_resolves w t Hres))
    as [found Hfound].
  exists found. split; [done|]. intros Hin.
  destruct (getTriggers_fires _ _ _ _ _ Hfound Hin) as (trg & Htrg & Hf).
  rewrite (stop_known w t l Ht) in Htrg. simpl in Htrg.
  rewrite list_lookup_alter_eq in Htrg.
  destruct (heap w !! l) as [o|]; [|done]. injection Htrg as <-.
  unfold fires in Hf. simpl in Hf. by rewrite andb_false_r in Hf.
Qed.

Lemma stopped_trigger_is_not_found_witness :
  ∃ found,
    getTriggers (stop "0a" four_subscribers).1 (pathOf "shop" "orders") INSERT
    = Ok found ∧ 0 ∉ found.
Proof.
  apply (stopped_trigger_is_not_found four_subscribers "0a" 0).
  - apply resolvesb_sound. vm_compute. reflexivity.
  - vm_compute. reflexivity.
Defined.

(** ** What every reachable state keeps *)

Lemma add_handlers_callable w trg rnd :
  handlers_callable w → handlers_callable (add trg rnd w).1.
Proof.
  intros Hc. destruct trg as [l|]; [|done].
  destruct (heap w !! l) as [o|] eqn:Hl.
  2:{ unfold add, mbind, M_bind, deref. by rewrite Hl. }
  destruct (is_function (handler o)) eqn:Hf.
  2:{ by rewrite (add_without_function w l o rnd Hl Hf). }
  rewrite (add_run w l o rnd Hl Hf). cbv zeta.
  assert (∀ h' x l' o', handler x = handler o → h' = <[l := x]> (heap w) →
            h' !! l' = Some o' →
            (l' = l ∧ is_function (handler o') = true) ∨
            (l' ≠ l ∧ heap w !! l' = Some o')) as Hheap.
  { intros h' x l' o' Hx -> Hl'. destruct (decide (l' = l)) as [->|Hne].
    - left. split; [done|].
      rewrite (insert_lookup_same l (heap w) o x Hl) in Hl'.
      injection Hl' as <-. by rewrite Hx.
    - right. split; [done|]. by rewrite list_lookup_insert_ne in Hl'. }
  destruct (checkExpression (expression o)) as [e|err].
  - destruct (triggers_has (or_else (tag o) rnd) w || tags_has e w);
      intros t l' o' Ht Hl'; simpl in Ht, Hl'.
    + destruct (Hheap _ (set_expression e (defaulted o rnd)) l' o' eq_refl eq_refl Hl')
        as [[_ ?]|[_ Hold]]; [done|]. by eapply Hc.
    + destruct (Hheap _ (set_expression e (defaulted o rnd)) l' o' eq_refl eq_refl Hl')
        as [[_ ?]|[Hne Hold]]; [done|].
      destruct (decide (t = or_else (tag o) rnd)) as [->|Hnt].
      * rewrite lookup_insert_eq in Ht. by injection Ht as <-.
      * rewrite lookup_insert_ne in Ht by done. by eapply Hc.
  - intros t l' o' Ht Hl'. simpl in Ht, Hl'.
    destruct (Hheap _ (defaulted o rnd) l' o' eq_refl eq_refl Hl')
      as [[_ ?]|[_ Hold]]; [done|]. by eapply Hc.
Qed.

Lemma set_enable_handlers_callable w b l :
  handlers_callable w →
  handlers_callable (mkMysqlEvent (alter (set_enable b) l (heap w)) (triggers w) (tags w)).
Proof.
  intros Hc t l' o' Ht Hl'. simpl in Ht, Hl'.
  destruct (decide (l' = l)) as [->|Hne].
  - rewrite list_lookup_alter_eq in Hl'.
    destruct (heap w !! l) as [o|] eqn:Hl; [|done]. injection Hl' as <-.
    simpl. by eapply Hc.
  - rewrite list_lookup_alter_ne in Hl' by done. by eapply Hc.
Qed.

Lemma step_handlers_callable w o :
  handlers_callable w → handlers_callable (step w o).
Proof.
  intros Hc. destruct o as [trg rnd|t|t|t]; simpl.
  - by apply add_handlers_callable.
  - destruct (triggers w !! t) as [l|] eqn:Ht.
    + rewrite (start_known w t l Ht). by apply set_enable_handlers_callable.
    + by rewrite (start_unknown w t Ht).
  - destruct (triggers w !! t) as [l|] eqn:Ht.
    + rewrite (stop_known w t l Ht). by apply set_enable_handlers_callable.
    + by rewrite (stop_unknown w t Ht).
  - intros t' l o' Ht Hl. simpl in Ht, Hl.
    apply lookup_delete_Some in Ht as [_ Ht]. by eapply Hc.
Qed.

Lemma run_handlers_callable ops w :
  handlers_callable w → handlers_callable (run ops w).
Proof.
  revert w. induction ops as [|o ops IH]; intros w Hc; [done|].
  simpl. apply IH. by apply step_handlers_callable.
Qed.

(** X11: the check of the handler in [add] holds for good: in every
    state the public operations reach from a fresh instance, [remove]
    included, every trigger in the tag map has a function for handler. *)
Theorem registered_handlers_are_functions objs ops :
  handlers_callable (run ops (fresh objs)).
Proof.
  apply run_handlers_callable. intros t l o Ht. simpl in Ht.
  by rewrite lookup_empty in Ht.
Qed.

Lemma add_one_to_one w trg rnd :
  consistent w → one_to_one w → one_to_one (add trg rnd w).1.
Proof.
  intros [_ Htag] [Hinj Hsur]. destruct trg as [l|]; [|done].
  destruct (heap w !! l) as [o|] eqn:Hl.
  2:{ unfold add, mbind, M_bind, deref. by rewrite Hl. }
  destruct (is_function (handler o)) eqn:Hf.
  2:{ by rewrite (add_without_function w l o rnd Hl Hf). }
  rewrite (add_run w l o rnd Hl Hf). cbv zeta.
  destruct (checkExpression (expression o)) as [e|err]; [|done].
  destruct (triggers_has (or_else (tag o) rnd) w || tags_has e w) eqn:Htaken;
    [done|].
  apply orb_false_iff in Htaken as [Ht He].
  unfold triggers_has, tags_has in Ht, He.
  apply bool_decide_eq_false in Ht, He.
  set (t := or_else (tag o) rnd) in *.
  assert (∀ e', tags w !! e' ≠ Some t) as Hfresh.
  { intros e' He'. apply Ht. by eapply Htag. }
  split; simpl.
  - intros e1 e2 t' H1 H2.
    destruct (decide (e1 = e)) as [->|N1]; destruct (decide (e2 = e)) as [->|N2];
      [done| | |].
    + rewrite lookup_insert_eq in H1. injection H1 as <-.
      rewrite lookup_insert_ne in H2 by done. by destruct (Hfresh e2).
    + rewrite lookup_insert_eq in H2. injection H2 as <-.
      rewrite lookup_insert_ne in H1 by done. by destruct (Hfresh e1).
    + rewrite lookup_insert_ne in H1, H2 by done. by eapply Hinj.
  - intros t' l' Hl'. destruct (decide (t' = t)) as [->|Nt].
    + exists e. by rewrite lookup_insert_eq.
    + rewrite lookup_insert_ne in Hl' by done.
      destruct (Hsur t' l' Hl') as [e' He'']. exists e'.
      rewrite lookup_insert_ne; [done|]. intros <-. apply He. by eexists.
Qed.

Lemma run_one_to_one ops w :
  forallb (λ o, negb (is_remove o)) ops = true →
  consistent w → one_to_one w → one_to_one (run ops w).
Proof.
  revert w. induction ops as [|o ops IH]; intros w Hops Hc H1; [done|].
  simpl in Hops. apply andb_true_iff in Hops as [Ho Hops].
  apply negb_true_iff in Ho. simpl.
  apply IH; [done|by apply step_consistent|].
  destruct o as [trg rnd|t|t|t]; simpl; [| | |done].
  - by apply add_one_to_one.
  - destruct (start_run w t) as (Ht & Hg & _). destruct H1 as [Hinj Hsur].
    split; rewrite ?Ht, ?Hg; done.
  - destruct (stop_run w t) as (Ht & Hg & _). destruct H1 as [Hinj Hsur].
    split; rewrite ?Ht, ?Hg; done.
Qed.

(** X12: as long as [remove] is not called, tags and expressions go by
    pairs in every state reached from a fresh instance: every expression
    entry names a registered tag, no tag is named by two expressions, and
    every registered tag is named by one. *)
Theorem tags_and_expressions_pair_up objs ops :
  forallb (λ o, negb (is_remove o)) ops = true →
  consistent (run ops (fresh objs)) ∧ one_to_one (run ops (fresh objs)).
Proof.
  intros Hops. split.
  - apply run_consistent; [done|apply fresh_consistent].
  - apply run_one_to_one; [done|apply fresh_consistent|].
    split.
    + intros e1 e2 t H. simpl in H. by rewrite lookup_empty in H.
    + intros t l H. simpl in H. by rewrite lookup_empty in H.
Qed.

Lemma tags_and_expressions_pair_up_witness :
  consistent four_subscribers ∧ one_to_one four_subscribers.
Proof.
  apply (tags_and_expressions_pair_up
           [mkTrigger (Function 0) None (Some "*") (Some ALL) None;
            mkTrigger (Function 1) None (Some "shop.*") (Some UPDATE) None;
            mkTrigger (Function 2) None (Some "*.orders") (Some INSERT) None;
            mkTrigger (Function 3) None (Some "shop.orders") (Some DELETE) None]
           [OpAdd (Some 0) "0a"; OpAdd (Some 1) "0b"; OpAdd (Some 2) "0c";
            OpAdd (Some 3) "0d"]).
  reflexivity.
Defined.

(** ** remove, and what follows it *)

(** X13: a tag that was removed and is registered again takes the
    expression of the removed trigger with it: once [add] has accepted a
    trigger under a tag that an expression entry still names, the new
    trigger owns that old expression as well as its own. *)
Theorem removed_tag_comes_back w l o rnd e e' :
  tags w !! e = Some (or_else (tag o) rnd) →
  triggers w !! or_else (tag o) rnd = None →
  heap w !! l = Some o → is_function (handler o) = true →
  checkExpression (expression o) = Ok e' → tags w !! e' = None →
  (add (Some l) rnd w).2 = Ok (Tag (or_else (tag o) rnd)) ∧
  owner (add (Some l) rnd w).1 e
  = Some (l, set_expression e' (defaulted o rnd)) ∧
  owner (add (Some l) rnd w).1 e'
  = Some (l, set_expression e' (defaulted o rnd)).
Proof.
  intros He Ht Hl Hf Hexp He'.
  rewrite (add_run w l o rnd Hl Hf), Hexp. cbv zeta.
  assert (triggers_has (or_else (tag o) rnd) w || tags_has e' w = false) as ->.
  { unfold triggers_has, tags_has. rewrite Ht, He'. apply orb_false_iff.
    split; apply bool_decide_eq_false_2; by intros [? ?]. }
  assert (e ≠ e') as Hne by (intros ->; by rewrite He' in He).
  assert (e' ≠ e) as Hne' by done.
  split; [done|]. unfold owner. simpl. split.
  - rewrite (lookup_insert_ne _ e' e) by done. rewrite He. simpl.
    rewrite lookup_insert_eq. simpl.
    by rewrite (insert_lookup_same l (heap w) o _ Hl).
  - rewrite lookup_insert_eq. simpl. rewrite lookup_insert_eq. simpl.
    by rewrite (insert_lookup_same l (heap w) o _ Hl).
Qed.

Lemma removed_tag_comes_back_witness :
  (add (Some 1) "0rnd" (after_remove same_tag_new_expression)).2 = Ok (Tag "t") ∧
  owner (add (Some 1) "0rnd" (after_remove same_tag_new_expression)).1 "a.b"
  = Some (1, set_expression "c.d" (defaulted same_tag_new_expression "0rnd")) ∧
  owner (add (Some 1) "0rnd" (after_remove same_tag_new_expression)).1 "c.d"
  = Some (1, set_expression "c.d" (defaulted same_tag_new_expression "0rnd")).
Proof.
  apply (removed_tag_comes_back (after_remove same_tag_new_expression) 1
           same_tag_new_expression "0rnd" "a.b" "c.d"); reflexivity.
Defined.

(** X14: after [remove] of a tag, a batch on a path that has the
    expression of that tag among its four candidates reaches nobody:
    [eventHandler] throws a TypeError before any handler is called, the
    handlers of the other triggers on that path included. *)
Theorem eventHandler_throws_after_remove w t e blEvent entry act log :
  tags w !! e = Some t → t ≠ "" →
  tableMap blEvent !! tableId blEvent = Some entry →
  e ∈ pathOptions (pathOf (parentSchema entry) (tableName entry)) →
  eventHandler (remove t w).1 blEvent act log = (log, Throw TypeError) ∧
  Rev2.eventHandler (remove t w).1 blEvent act log = (log, Throw TypeError).
Proof.
  intros He Ht Hentry Hin.
  pose proof (getTriggers_after_remove w t e _ act He Ht Hin) as Hthrow.
  unfold pathOf in Hthrow.
  unfold eventHandler, Rev2.eventHandler, mbind, M_bind, lift, table_entry.
  rewrite Hentry. cbv beta iota. by rewrite Hthrow.
Qed.

Lemma eventHandler_throws_after_remove_witness :
  eventHandler (remove "0d" four_subscribers).1 two_inserts INSERT []
  = ([], Throw TypeError) ∧
  Rev2.eventHandler (remove "0d" four_subscribers).1 two_inserts INSERT []
  = ([], Throw TypeError).
Proof.
  apply (eventHandler_throws_after_remove four_subscribers "0d" "shop.orders"
           two_inserts (mkEntry "shop" "orders") INSERT []).
  - vm_compute. reflexivity.
  - discriminate.
  - reflexivity.
  - apply list_elem_of_In. vm_compute. auto.
Defined.

(** ** The changed columns *)

(** X15: when the before-image names each column once, [changedColumns]
    lists the columns whose printed values differ in the order in which
    the before-image enumerates them. *)
Theorem changed_keeps_column_order before after :
  NoDup (map fst before) →
  changed (JObj before) (JObj after)
  = Ok (filter (λ k, differs before after k = true) (map fst before)).
Proof. intros Hnd. by apply (changed_filter before after (map fst before) []). Qed.

Lemma changed_keeps_column_order_witness :
  changed (JObj status_before) (JObj status_after)
  = Ok (filter (λ k, differs status_before status_after k = true)
               (map fst status_before)).
Proof.
  apply (changed_keeps_column_order status_before status_after).
  apply (bool_decide_unpack _). vm_compute. exact I.
Defined.

(** X16: an update whose before and after values print alike column by
    column reports no changed column: the same image twice, or images
    that differ in the type of a value and not in its printed form. *)
Theorem changed_is_empty_when_values_print_alike before after :
  (∀ k, k ∈ map fst before →
        ToString (lookup_prop before k) = ToString (lookup_prop after k)) →
  changed (JObj before) (JObj after) = Ok [].
Proof.
  intros Hsame. destruct (changed_objects before after) as (cs & -> & _ & Hk).
  f_equal. destruct cs as [|k cs]; [done|].
  destruct (proj1 (Hk k)) as [Hin Hd]; [by left|].
  unfold differs in Hd. rewrite (Hsame k Hin), String.eqb_refl in Hd. done.
Qed.

Lemma changed_is_empty_when_values_print_alike_witness :
  changed (JObj status_before) (JObj status_before) = Ok [].
Proof.
  apply (changed_is_empty_when_values_print_alike status_before status_before).
  reflexivity.
Defined.


(** ** The builder on rows it cannot read *)

(** X18: the INSERT and DELETE blocks take any row; the UPDATE block
    throws a TypeError on a row that is [null] or [undefined], and on a
    row without after-image exactly when the before-image has a column:
    with an empty before-image the event is built, with [undefined] for
    [data.new]. *)
Theorem fillEvent_on_unreadable_rows event :
  (∀ act row, act ≠ UPDATE → ∃ e, fillEvent act event row = Ok e) ∧
  fillEvent UPDATE event JNull = Throw TypeError ∧
  fillEvent UPDATE event JUndefined = Throw TypeError ∧
  (∀ key v before,
     fillEvent UPDATE event (beforeOnly ((key, v) :: before)) = Throw TypeError) ∧
  fillEvent UPDATE event (beforeOnly [])
  = Ok (set_changedColumns [] (set_data_new JUndefined (set_data_old (JObj []) event))).
Proof.
  split; [|split; [done|split; [done|split; [|done]]]].
  - intros act row Hact.
    destruct act; [by eexists|by destruct Hact|by eexists|by eexists].
  - intros key v before. unfold fillEvent, beforeOnly.
    change (get (JObj [("before", JObj ((key, v) :: before))]) "before")
      with (Ok (JObj ((key, v) :: before)) : result jsval).
    change (get (JObj [("before", JObj ((key, v) :: before))]) "after")
      with (Ok JUndefined : result jsval).
    reflexivity.
Qed.

(** ** The two builders on a whole batch *)

Lemma foldM_fillEvent_frame act rows ev0 ev :
  foldM (fillEvent act) ev0 rows = Ok ev →
  action ev = action ev0 ∧ timestamp ev = timestamp ev0 ∧
  database ev = database ev0 ∧ table ev = table ev0.
Proof.
  revert ev0. induction rows as [|row rows IH]; intros ev0; cbn [foldM].
  - by intros [= <-].
  - destruct (fillEvent act ev0 row) as [e|] eqn:He;
      cbn [mbind result_bind]; [|done].
    intros H. destruct (IH e H) as (-> & -> & -> & ->).
    by apply fillEvent_frame in He.
Qed.


(** X19: [getManyEvents] of revisions 1 and 3 returns, for a batch it can
    read, as many payloads as there are rows, all of them the reference it
    was given: whoever reads them afterwards sees the same event at every
    index, the one object after the last row was written into it, under
    the action, timestamp, schema and table it had at the start. *)
Theorem getManyEvents_payloads_are_one_object act rows ev0 :
  well_formed_rows act rows →
  ∃ ev, getManyEvents 0 act rows [ev0] = ([ev], Ok (replicate (length rows) 0)) ∧
        contents [ev] (replicate (length rows) 0) = replicate (length rows) ev ∧
        action ev = action ev0 ∧ timestamp ev = timestamp ev0 ∧
        database ev = database ev0 ∧ table ev = table ev0.
Proof.
  intros Hwf. destruct (foldM_fillEvent_total act rows ev0 Hwf) as [ev Hev].
  exists ev. split; [|split].
  - unfold getManyEvents. by rewrite (getManyEvents_run act rows ev0 ev [] Hev).
  - apply contents_replicate.
  - by eapply foldM_fillEvent_frame.
Qed.

Lemma getManyEvents_payloads_are_one_object_witness :
  ∃ ev, getManyEvents 0 DELETE [row1; row2] [getEventObject DELETE "shop.orders" 1000]
        = ([ev], Ok (replicate 2 0)) ∧
        contents [ev] (replicate 2 0) = replicate 2 ev ∧
        action ev = DELETE ∧ timestamp ev = 1000%Z ∧
        database ev = Some "shop" ∧ table ev = Some "orders".
Proof.
  apply (getManyEvents_payloads_are_one_object DELETE [row1; row2]
           (getEventObject DELETE "shop.orders" 1000)).
  intros Hact. discriminate Hact.
Defined.

(** X20: [getManyEvents] of revision 2 returns, for a batch it can read,
    one event per row, and the event at the index of a row is what the
    three blocks make of a fresh template and that row alone: no row
    shows in the event of another. *)
Theorem Rev2_getManyEvents_builds_each_row_apart act rows template :
  well_formed_rows act rows →
  ∃ events,
    Rev2.getManyEvents act rows template = Ok events ∧
    length events = length rows ∧
    ∀ i row, rows !! i = Some row →
      ∃ e, events !! i = Some e ∧
           fillEvent act (Rev2.getEventTemplate act template) row = Ok e ∧
           action e = act ∧
           timestamp e = Rev2.template_timestamp template.
Proof.
  intros Hwf.
  destruct (Rev2_getManyEvents_total act rows template Hwf) as (events & Hev & Hlen).
  exists events. split; [done|]. split; [done|].
  intros i row Hi. pose proof (Rev2_getManyEvents_inv _ _ _ _ Hev) as Hall.
  destruct (Forall2_lookup_l _ _ _ _ _ Hall Hi) as (e & He & Hfill).
  exists e. split; [done|]. split; [done|].
  by destruct (fillEvent_frame _ _ _ _ Hfill) as (-> & -> & _).
Qed.

Lemma Rev2_getManyEvents_builds_each_row_apart_witness :
  ∃ events,
    Rev2.getManyEvents INSERT [row1; row2] orders = Ok events ∧
    length events = 2 ∧
    ∀ i row, [row1; row2] !! i = Some row →
      ∃ e, events !! i = Some e ∧
           fillEvent INSERT (Rev2.getEventTemplate INSERT orders) row = Ok e ∧
           action e = INSERT ∧
           timestamp e = 1000%Z.
Proof.
  apply (Rev2_getManyEvents_builds_each_row_apart INSERT [row1; row2] orders).
  intros Hact. discriminate Hact.
Defined.

(** X21: the schema and the table of an event are the first two parts of
    the path: for a schema name without a dot the event has that schema,
    and for table the table name up to its first dot, so a table name
    with a dot is cut short.  The same in [getEventObject] and in
    [Rev2.getEventTemplate]. *)
Theorem event_names_come_from_the_path act db tbl ts :
  has_dot db = false →
  database (getEventObject act (pathOf db tbl) ts) = Some db ∧
  table (getEventObject act (pathOf db tbl) ts) = split tbl !! 0 ∧
  (has_dot tbl = false →
   table (getEventObject act (pathOf db tbl) ts) = Some tbl) ∧
  Rev2.getEventTemplate act (Rev2.mkTemplate (pathOf db tbl) ts)
  = getEventObject act (pathOf db tbl) ts.
Proof.
  intros Hd. unfold getEventObject, Rev2.getEventTemplate, pathOf. simpl.
  rewrite split_app_dot by done. simpl. repeat split.
  intros Ht. by rewrite split_no_dot.
Qed.

Lemma event_names_come_from_the_path_witness :
  database (getEventObject INSERT (pathOf "shop" "orders.2024") 1000) = Some "shop" ∧
  table (getEventObject INSERT (pathOf "shop" "orders.2024") 1000)
  = split "orders.2024" !! 0 ∧
  (has_dot "orders.2024" = false →
   table (getEventObject INSERT (pathOf "shop" "orders.2024") 1000)
   = Some "orders.2024") ∧
  Rev2.getEventTemplate INSERT (Rev2.mkTemplate (pathOf "shop" "orders.2024") 1000)
  = getEventObject INSERT (pathOf "shop" "orders.2024") 1000.
Proof.
  apply (event_names_come_from_the_path INSERT "shop" "orders.2024" 1000).
  reflexivity.
Defined.

(** ** What reaches the handlers *)

Lemma foldM_visit_registered w act exps acc found :
  foldM (visit w act) acc exps = Ok found →
  (∀ l, l ∈ acc → ∃ t, triggers w !! t = Some l) →
  ∀ l, l ∈ found → ∃ t, triggers w !! t = Some l.
Proof.
  revert acc. induction exps as [|exp exps IH]; intros acc; cbn [foldM].
  - by intros [= <-].
  - destruct (visit w act acc exp) as [acc'|err] eqn:Hv;
      cbn [mbind result_bind]; [|done].
    intros Hrest Hacc. apply (IH acc' Hrest).
    unfold visit in Hv. destruct (tags w !! exp) as [t|]; [|by injection Hv as <-].
    destruct (String.eqb t ""); [by injection Hv as <-|].
    destruct (triggers w !! t) as [l0|] eqn:Hl0; [|done].
    destruct (heap w !! l0) as [trg|]; [|done].
    injection Hv as <-. destruct (fires act trg); [|done].
    intros l [Hl|Hl]%elem_of_app; [by apply Hacc|].
    apply list_elem_of_singleton in Hl as ->. by exists t.
Qed.

Lemma getTriggers_registered w path act found l :
  getTriggers w path act = Ok found → l ∈ found →
  ∃ t, triggers w !! t = Some l.
Proof.
  intros H Hin. apply (foldM_visit_registered w act _ [] found H); [|done].
  intros ? []%elem_of_nil.
Qed.

Lemma getTriggers_handlers_of w path act found :
  handlers_callable w → getTriggers w path act = Ok found →
  ∃ ids, handlers_of w found ids.
Proof.
  intros Hc Hfound.
  assert (∀ l, l ∈ found → ∃ id, handler <$> heap w !! l = Some (Function id)) as Hall.
  { intros l Hl.
    destruct (getTriggers_registered _ _ _ _ _ Hfound Hl) as [t Ht].
    destruct (getTriggers_fires _ _ _ _ _ Hfound Hl) as (trg & Htrg & _).
    pose proof (Hc t l trg Ht Htrg) as Hf. rewrite Htrg. simpl.
    destruct (handler trg) as [id|]; [by exists id|done]. }
  clear Hfound. unfold handlers_of.
  induction found as [|l found IH]; [exists []; constructor|].
  destruct (Hall l) as [id Hid]; [by left|].
  destruct IH as [ids Hids]; [intros l' Hl'; apply Hall; by right|].
  exists (id :: ids). by constructor.
Qed.

Lemma eventHandler_outcome w blEvent act log :
  handlers_callable w →
  (eventHandler w blEvent act log).2 = Ok () ∨
  (eventHandler w blEvent act log).1 = log.
Proof.
  intros Hc. unfold eventHandler, mbind, M_bind, lift.
  destruct (table_entry blEvent) as [entry|]; [|by right].
  destruct (getTriggers w _ act) as [found|] eqn:Hfound; [|by right].
  destruct (Nat.eqb (length found) 0); [by left|].
  destruct (getManyEvents 0 act (rows blEvent) _) as [h [payloads|e]]; [|by right].
  destruct (getTriggers_handlers_of _ _ _ _ Hc Hfound) as [ids Hids].
  left. by rewrite (dispatch_delivers w found ids _ Hids log).
Qed.

Lemma Rev2_eventHandler_outcome w blEvent act log :
  handlers_callable w →
  (Rev2.eventHandler w blEvent act log).2 = Ok () ∨
  (Rev2.eventHandler w blEvent act log).1 = log.
Proof.
  intros Hc. unfold Rev2.eventHandler, mbind, M_bind, lift.
  destruct (table_entry blEvent) as [entry|]; [|by right].
  destruct (getTriggers w _ act) as [found|] eqn:Hfound; [|by right].
  destruct (Nat.eqb (length found) 0); [by left|].
  destruct (Rev2.getManyEvents act (rows blEvent) _) as [events|e]; [|by right].
  destruct (getTriggers_handlers_of _ _ _ _ Hc Hfound) as [ids Hids].
  left. by rewrite (dispatch_delivers w found ids _ Hids log).
Qed.

(** X22: [eventHandler] builds every event of a batch before it calls the
    first handler.  In every state the public operations reach from a
    fresh instance, an error of [eventHandler] (no table map entry, a tag
    without its trigger, a row that cannot be read) leaves no handler
    called: either the call returns, or the log of invocations is as it
    was, also for the rows before the one that could not be read.  Both
    for [eventHandler] and for [Rev2.eventHandler]; handlers are taken
    to return. *)
Theorem eventHandler_calls_all_or_none objs ops blEvent act log err :
  ((eventHandler (run ops (fresh objs)) blEvent act log).2 = Throw err →
   (eventHandler (run ops (fresh objs)) blEvent act log).1 = log) ∧
  ((Rev2.eventHandler (run ops (fresh objs)) blEvent act log).2 = Throw err →
   (Rev2.eventHandler (run ops (fresh objs)) blEvent act log).1 = log).
Proof.
  assert (handlers_callable (run ops (fresh objs))) as Hc.
  { apply run_handlers_callable. intros t l o Ht. simpl in Ht.
    by rewrite lookup_empty in Ht. }
  split; intros Hthrow.
  - destruct (eventHandler_outcome _ blEvent act log Hc) as [Hok|Hlog]; [|done].
    rewrite Hok in Hthrow. discriminate Hthrow.
  - destruct (Rev2_eventHandler_outcome _ blEvent act log Hc) as [Hok|Hlog]; [|done].
    rewrite Hok in Hthrow. discriminate Hthrow.
Qed.












(** ** getRandomTag *)

Lemma length_substring_le n m s :
  (String.length (String.substring n m s) ≤ m)%nat.
Proof.
  revert n m. induction s as [|c s IH]; intros [|n] [|m]; simpl; try lia.
  - specialize (IH 0 m). lia.
  - apply (IH n 0).
  - apply (IH n (S m)).
Qed.

Lemma substring_chars n m s c :
  c ∈ String.list_ascii_of_string (String.substring n m s) →
  c ∈ String.list_ascii_of_string s.
Proof.
  revert n m. induction s as [|d s IH]; intros [|n] [|m]; simpl; try done.
  - by intros ?%elem_of_nil.
  - intros [->|Hin]%elem_of_cons; [by left|]. right. by apply (IH 0 m).
  - intros Hin. right. by apply (IH n 0).
  - intros Hin. right. by apply (IH n (S m)).
Qed.

Lemma replace_others_chars s c :
  c ∈ String.list_ascii_of_string (replace_others s) →
  tag_char c = true ∧ c ∈ String.list_ascii_of_string s.
Proof.
  induction s as [|d s IH]; simpl; [by intros ?%elem_of_nil|].
  destruct (tag_char d) eqn:Hd; simpl.
  - intros [->|Hin]%elem_of_cons; [split; [done|by left]|].
    destruct (IH Hin). split; [done|by right].
  - intros Hin. destruct (IH Hin). split; [done|by right].
Qed.

Lemma replace_others_id s :
  (∀ c, c ∈ String.list_ascii_of_string s → tag_char c = true) → replace_others s = s.
Proof.
  induction s as [|d s IH]; simpl; [done|]. intros Hall.
  rewrite (Hall d) by (by left). f_equal. apply IH. intros c Hc. apply Hall.
  by right.
Qed.

(** X24: a tag made by [getRandomTag] has seven characters at most, each
    of them a lower-case letter, a digit or a bar, and each a character of
    the printed number: whatever [Math.random().toString(36)] gives. *)
Theorem getRandomTag_shape printed :
  (String.length (getRandomTag printed) ≤ 7)%nat ∧
  ∀ c, c ∈ String.list_ascii_of_string (getRandomTag printed) →
       tag_char c = true ∧ c ∈ String.list_ascii_of_string printed.
Proof.
  unfold getRandomTag. split; [apply length_substring_le|].
  intros c Hc. apply replace_others_chars. by eapply substring_chars.
Qed.

(** X25: a number below one prints as a zero, a dot and its digits, so the
    tag is the zero followed by the first six digits: the dot goes, the
    zero stays, and six characters are left to tell two generated tags
    apart.  The tag is not empty, which is what [generated_ok] asks of the
    [rnd] handed to [add]. *)
Theorem getRandomTag_of_fraction digits :
  (∀ c, c ∈ String.list_ascii_of_string digits → tag_char c = true) →
  getRandomTag ("0." +:+ digits) = String "0" (String.substring 0 6 digits) ∧
  ∀ trg, generated_ok (OpAdd trg (getRandomTag ("0." +:+ digits))) = true.
Proof.
  intros Hall.
  assert (getRandomTag ("0." +:+ digits)
          = String "0" (String.substring 0 6 digits)) as ->.
  { unfold getRandomTag. rewrite !append_String, append_empty. simpl.
    by rewrite (replace_others_id digits Hall). }
  split; [done|]. by intros trg.
Qed.

Lemma getRandomTag_of_fraction_witness :
  getRandomTag ("0." +:+ "4fzyo82mvyr")
  = String "0" (String.substring 0 6 "4fzyo82mvyr") ∧
  ∀ trg, generated_ok (OpAdd trg (getRandomTag ("0." +:+ "4fzyo82mvyr"))) = true.
Proof.
  apply (getRandomTag_of_fraction "4fzyo82mvyr").
  intros c Hc. simpl in Hc. set_unfold.
  repeat (destruct Hc as [->|Hc]; [reflexivity|]). destruct Hc.
Defined.

(** ** init and the listeners *)

Lemma remove_first_absent f fs : f ∉ fs → remove_first f fs = fs.
Proof.
  induction fs as [|g fs IH]; simpl; [done|]. intros Hnot.
  destruct (Nat.eqb_spec f g) as [->|Hne]; [exfalso; apply Hnot; by left|].
  f_equal. apply IH. intros Hin. apply Hnot. by right.
Qed.

Lemma removeListener_new f z :
  (∀ g, g ∈ listeners z → g < f) →
  listeners (removeListener f z).1 = listeners z.
Proof.
  intros Hlt. unfold removeListener, modify. simpl.
  rewrite remove_first_absent; [apply reverse_involutive|].
  rewrite elem_of_reverse. intros Hin. apply Hlt in Hin. lia.
Qed.

Lemma init_run z :
  (∀ g, g ∈ listeners z → g < next_function z) →
  listeners (init z).1 = (listeners z ++ [S (next_function z)])%list ∧
  next_function (init z).1 = S (S (next_function z)).
Proof.
  intros Hlt. unfold init, mbind, M_bind, bind_binlogCallback. simpl.
  rewrite remove_first_absent; [by rewrite reverse_involutive|].
  rewrite elem_of_reverse. intros Hin. apply Hlt in Hin. lia.
Qed.

Lemma on_error_run z :
  (∀ g, g ∈ listeners z → g < next_function z) →
  listeners (on_error z).1 = listeners z ∧
  next_function (on_error z).1 = S (next_function z).
Proof.
  intros Hlt. unfold on_error, mbind, M_bind, bind_binlogCallback. simpl.
  rewrite remove_first_absent; [by rewrite reverse_involutive|].
  rewrite elem_of_reverse. intros Hin. apply Hlt in Hin. lia.
Qed.

Lemma emitter_run_listeners ops z :
  (∀ g, g ∈ listeners z → g < next_function z) → NoDup (listeners z) →
  (∀ g, g ∈ listeners (emitter_run ops z) → g < next_function (emitter_run ops z)) ∧
  NoDup (listeners (emitter_run ops z)) ∧
  length (listeners (emitter_run ops z))
  = length (listeners z) + length (filter (λ o, is_init o = true) ops).
Proof.
  revert z. induction ops as [|o ops IH]; intros z Hlt Hnd.
  - simpl. split; [done|]. split; [done|]. lia.
  - cbn [emitter_run foldl]. fold (emitter_run ops (emitter_step z o)).
    destruct o; cbn [emitter_step].
    + destruct (init_run z Hlt) as [Hl Hn].
      destruct (IH (init z).1) as (H1 & H2 & H3).
      * rewrite Hl, Hn. intros g [Hg|Hg]%elem_of_app.
        -- apply Hlt in Hg. lia.
        -- apply list_elem_of_singleton in Hg as ->. lia.
      * rewrite Hl. apply NoDup_app. split; [done|]. split; [|apply NoDup_singleton].
        intros g Hg Hg'. apply list_elem_of_singleton in Hg' as ->.
        apply Hlt in Hg. lia.
      * split; [done|]. split; [done|]. rewrite H3, Hl, length_app.
        rewrite filter_cons_True by done. simpl. lia.
    + destruct (on_error_run z Hlt) as [Hl Hn].
      destruct (IH (on_error z).1) as (H1 & H2 & H3).
      * rewrite Hl, Hn. intros g Hg. apply Hlt in Hg. lia.
      * by rewrite Hl.
      * split; [done|]. split; [done|]. rewrite H3, Hl.
        by rewrite filter_cons_False by done.
Qed.

(** X26: no listener on [binlog] is ever taken away.  [init] asks the
    emitter to remove a function object it has just made, which the
    emitter does not hold, and then adds one more; the [error] listener
    does the same removal.  So after any sequence of [init] calls (the
    constructor, [satrtAll]) and [error] events on a new emitter, the
    listeners are pairwise distinct and as many as [init] was called. *)
Theorem init_adds_a_listener_each_time ops :
  NoDup (listeners (emitter_run ops new_Zongji)) ∧
  length (listeners (emitter_run ops new_Zongji))
  = length (filter (λ o, is_init o = true) ops) ∧
  listeners (satrtAll (emitter_run ops new_Zongji)).1
  = (listeners (emitter_run ops new_Zongji)
     ++ [S (next_function (emitter_run ops new_Zongji))])%list ∧
  listeners (on_error (emitter_run ops new_Zongji)).1
  = listeners (emitter_run ops new_Zongji).
Proof.
  destruct (emitter_run_listeners ops new_Zongji) as (Hlt & Hnd & Hlen).
  { by intros g ?%elem_of_nil. }
  { apply NoDup_nil_2. }
  split; [done|]. split; [done|]. split.
  - by destruct (init_run _ Hlt).
  - by destruct (on_error_run _ Hlt).
Qed.

Lemma invoke_log_indep w trg evt log :
  invoke w trg evt log
  = ((log ++ (invoke w trg evt []).1)%list, (invoke w trg evt []).2).
Proof.
  unfold invoke. destruct (handler <$> heap w !! trg) as [[id|]|]; simpl;
    by rewrite ?app_nil_r.
Qed.

Lemma forEach_log_indep {A} (f : A → M (list Invocation) unit) xs :
  (∀ x log, f x log = ((log ++ (f x []).1)%list, (f x []).2)) →
  ∀ log, forEach xs f log
         = ((log ++ (forEach xs f []).1)%list, (forEach xs f []).2).
Proof.
  intros Hf. induction xs as [|x xs IH]; intros log; cbn [forEach].
  - simpl. by rewrite app_nil_r.
  - unfold mbind, M_bind. rewrite (Hf x log).
    destruct (f x []) as [l1 [[]|e]]; cbn [fst snd]; [|done].
    rewrite (IH (log ++ l1)%list), (IH l1). cbn [fst snd].
    by rewrite app_assoc.
Qed.

Lemma dispatch_log_indep w found events log :
  dispatch w found events log
  = ((log ++ (dispatch w found events []).1)%list, (dispatch w found events []).2).
Proof.
  unfold dispatch. apply forEach_log_indep. intros trg log'.
  apply forEach_log_indep. intros evt log''. apply invoke_log_indep.
Qed.

Lemma binlogCallback_log_indep w name blEvent log :
  binlogCallback w name blEvent log
  = ((log ++ (binlogCallback w name blEvent []).1)%list,
     (binlogCallback w name blEvent []).2).
Proof.
  unfold binlogCallback. destruct (ACTIONS name) as [act|];
    [|simpl; by rewrite app_nil_r].
  unfold eventHandler, mbind, M_bind, lift.
  destruct (table_entry blEvent) as [entry|]; [|simpl; by rewrite app_nil_r].
  destruct (getTriggers w _ act) as [found|]; [|simpl; by rewrite app_nil_r].
  destruct (Nat.eqb (length found) 0); [simpl; by rewrite app_nil_r|].
  destruct (getManyEvents 0 act (rows blEvent) _) as [h [payloads|e]];
    [|simpl; by rewrite app_nil_r].
  apply dispatch_log_indep.
Qed.

Lemma forEach_repeats {A} (f : M (list Invocation) unit) (xs : list A) calls :
  (∀ log, f log = ((log ++ calls)%list, Ok ())) →
  ∀ log, forEach xs (λ _, f) log
         = ((log ++ concat (replicate (length xs) calls))%list, Ok ()).
Proof.
  intros Hf. induction xs as [|x xs IH]; intros log; cbn [forEach].
  - simpl. by rewrite app_nil_r.
  - unfold mbind, M_bind. rewrite Hf. rewrite IH. simpl. by rewrite app_assoc.
Qed.

(** X27: with the listeners [init] leaves, a binlog event is handled once
    for every call of [init] so far: where [binlogCallback] returns after
    the invocations [calls], one emitted event makes these invocations
    over again for each listener, the whole of [calls] as many times as
    [init] was called.  After the constructor and one [satrtAll] every
    subscriber is called twice for each row. *)
Theorem binlog_event_is_handled_once_per_init ops w name blEvent calls :
  binlogCallback w name blEvent [] = (calls, Ok ()) →
  ∀ log,
    emit_binlog (emitter_run ops new_Zongji) w name blEvent log
    = ((log ++ concat (replicate (length (filter (λ o, is_init o = true) ops))
                                 calls))%list, Ok ()).
Proof.
  intros Hcalls log. unfold emit_binlog.
  destruct (emitter_run_listeners ops new_Zongji) as (_ & _ & Hlen).
  { by intros g ?%elem_of_nil. }
  { apply NoDup_nil_2. }
  simpl in Hlen. rewrite <- Hlen. apply forEach_repeats.
  intros log'. rewrite binlogCallback_log_indep. by rewrite Hcalls.
Qed.

Lemma binlog_event_is_handled_once_per_init_witness :
  emit_binlog (emitter_run [Init; Init] new_Zongji) four_subscribers
              "writerows" two_inserts []
  = (([] ++ concat (replicate
                      (length (filter (λ o, is_init o = true) [Init; Init]))
                      (binlogCallback four_subscribers "writerows"
                         two_inserts []).1))%list, Ok ()).
Proof.
  refine (binlog_event_is_handled_once_per_init [Init; Init] four_subscribers
            "writerows" two_inserts _ _ []).
  vm_compute. reflexivity.
Defined.
